(** * ntc-docs-email-sender: the dispatch worker and the request gateway

    A shallow embedding of [src/cmd/cmd.go]:

    - the configuration records ([MailConfig], [SenderConfig], [Header],
      [Recipient]) and the request/outcome records;
    - [Header.ToString];
    - the worker goroutine [EmailerInstance], both as a labelled step
      relation over its program points and as an executable function that
      computes the events of one dispatch cycle;
    - the HTTP handler [clientHandler] as a small program over the channel
      operations it performs;
    - the whole process: one worker and a set of handler goroutines that
      synchronise over unbuffered channels.

    Go strings are byte sequences; they are modelled by [string].  An
    [error] is modelled by its message, a nilable error by [option error].
    The SMTP client and the template engine are collaborators outside the
    repository: the worker is verified for every SMTP client (a state
    passing function) and every template engine (a function from the request
    to the rendered bytes and an optional error). *)

From Stdlib Require Import ZArith String Ascii List DecimalString.
From stdpp Require Import base option list strings gmap fin_maps.

Local Open Scope string_scope.
Local Open Scope Z_scope.

(** ** Data model *)

(** A Go [error] value that is not nil, by its message. *)
Definition error := string.

(** A channel is identified by the order in which [make] created it. *)
Definition chan := nat.

(** [interface{}] as decoded from YAML, by its scalar cases; the program
    never inspects it. *)
Inductive Any :=
| AnyNil
| AnyString (s : string)
| AnyInt (z : Z)
| AnyBool (b : bool).

Module SenderConfig.
Record t := mk {
  Host : string;
  Port : Z;
  Address : string;
  Name : string;
  Password : string
}.
End SenderConfig.

Module Header.
Record t := mk {
  From : string;
  Subject : string;
  MIME : string;
  Miscellaneous : string
}.

(** [fmt.Sprintf("From: %s\nTo: %s\nSubject: %s\n%s\n%s\n", ...)] *)
Definition ToString (h : t) (to : string) : string :=
  "From: " +:+ From h +:+ "
To: " +:+ to +:+ "
Subject: " +:+ Subject h +:+ "
" +:+ MIME h +:+ "
" +:+ Miscellaneous h +:+ "
".
End Header.

Module Recipient.
Record t := mk {
  Name : string;
  Title : string;
  Address : string;
  Miscellaneous : Any
}.
End Recipient.

Record EmailSendRequest := {
  IPAddress : string;
  FirstName : string;
  LastName : string;
  CompanyName : string;
  EmailAddress : string;
  Description : string;
  Result : chan
}.

Record EmailSendOutcome := { Error : option error }.

Record MailConfig {Template : Type} := {
  Sender : SenderConfig.t;
  Recipients : gmap string Recipient.t;
  Header : Header.t;
  TemplateText : string;
  template : Template
}.
Arguments MailConfig : clear implicits.

(** ** The SMTP collaborator *)

(** [smtp.PlainAuth(identity, username, password, host)] *)
Record PlainAuth := {
  auth_identity : string;
  auth_username : string;
  auth_password : string;
  auth_host : string
}.

(** The arguments of one [smtp.SendMail] call. *)
Record SendMailCall := {
  call_addr : string;
  call_auth : PlainAuth;
  call_from : string;
  call_to : list string;
  call_msg : string
}.

(** [%d] of a Go int. *)
Definition format_int (z : Z) : string := NilZero.string_of_int (Z.to_int z).

(** ** The worker: [EmailerInstance] *)

(** What the worker does that is visible outside it: it dequeues a request,
    calls [smtp.SendMail], or completes a send on a reply channel. *)
Inductive Label :=
| LRecv (cmd : EmailSendRequest)
| LMail (c : SendMailCall) (res : option error)
| LPub (ch : chan) (o : EmailSendOutcome).

(** The program points at which the worker can be between two labels. *)
Inductive WState :=
| WIdle
| WReplyErr (cmd : EmailSendRequest) (err : error)
| WDeliver (cmd : EmailSendRequest) (body : string)
           (r : Recipient.t) (rest : list Recipient.t)
| WReply (cmd : EmailSendRequest) (body : string)
         (res : option error) (rest : list Recipient.t).

(** Head of [for _, r := range m.Recipients] with [rest] still to visit. *)
Definition loop_head (cmd : EmailSendRequest) (body : string)
    (rest : list Recipient.t) : WState :=
  match rest with
  | [] => WIdle
  | r :: rest' => WDeliver cmd body r rest'
  end.

Definition mails (tr : list Label) : list (SendMailCall * option error) :=
  flat_map (fun l => match l with LMail c res => [(c, res)] | _ => [] end) tr.

(** A mail and the publication of its result, as they follow each other
    in the loop body (lines 142-153). *)
Definition attempt (ch : chan) (p : SendMailCall * option error) : list Label :=
  [LMail p.1 p.2; LPub ch {| Error := p.2 |}].

Definition outcomes (ch : chan) (tr : list Label) : list EmailSendOutcome :=
  flat_map (fun l => match l with
                     | LPub ch' o => if decide (ch' = ch) then [o] else []
                     | _ => []
                     end) tr.

Section Worker.
(** The SMTP client: a call changes the outside world and may fail. *)
Variable World : Type.
Variable SendMail : World -> SendMailCall -> option error * World.

(** The template engine: [Execute] writes to the buffer and may fail. *)
Variable Template : Type.
Variable Execute : Template -> EmailSendRequest -> string * option error.

Variable m : MailConfig Template.

Definition auth : PlainAuth :=
  {| auth_identity := "";
     auth_username := SenderConfig.Address (Sender m);
     auth_password := SenderConfig.Password (Sender m);
     auth_host := SenderConfig.Host (Sender m) |}.

(** [fmt.Sprintf("%s:%d", m.Sender.Host, m.Sender.Port)] *)
Definition address : string :=
  SenderConfig.Host (Sender m) +:+ ":" +:+ format_int (SenderConfig.Port (Sender m)).

(** The [smtp.SendMail] call of lines 142-148 for recipient [r]. *)
Definition mail_call (body : string) (r : Recipient.t) : SendMailCall :=
  {| call_addr := address;
     call_auth := auth;
     call_from := SenderConfig.Address (Sender m);
     call_to := [Recipient.Address r];
     call_msg := Header.ToString (Header m) (Recipient.Address r) +:+ body |}.

(** The values of the directory, in the order of the map's own listing.
    A [range] over a Go map visits every entry once, in an order the
    language leaves open and the runtime randomises. *)
Definition directory : list Recipient.t := (map_to_list (Recipients m)).*2.

Definition range_order (order : list Recipient.t) : Prop :=
  order ≡ₚ directory.

Inductive wstep : WState * World -> Label -> WState * World -> Prop :=
| ws_recv_fail cmd w out err :
    Execute (template m) cmd = (out, Some err) ->
    wstep (WIdle, w) (LRecv cmd) (WReplyErr cmd err, w)
| ws_recv_ok cmd w body order :
    Execute (template m) cmd = (body, None) ->
    range_order order ->
    wstep (WIdle, w) (LRecv cmd) (loop_head cmd body order, w)
| ws_reply_err cmd err w :
    wstep (WReplyErr cmd err, w)
          (LPub (Result cmd) {| Error := Some err |}) (WIdle, w)
| ws_mail cmd body r rest w res w' :
    SendMail w (mail_call body r) = (res, w') ->
    wstep (WDeliver cmd body r rest, w)
          (LMail (mail_call body r) res) (WReply cmd body res rest, w')
| ws_reply cmd body res rest w :
    wstep (WReply cmd body res rest, w)
          (LPub (Result cmd) {| Error := res |}) (loop_head cmd body rest, w).

(** The worker runs from a program point until it is idle again. *)
Inductive finishes : WState * World -> list Label -> World -> Prop :=
| fin_idle w : finishes (WIdle, w) [] w
| fin_step c l c' tr w :
    c.1 <> WIdle -> wstep c l c' -> finishes c' tr w ->
    finishes c (l :: tr) w.

(** One dispatch cycle: dequeue [cmd], then run until idle. *)
Definition cycle (w : World) (cmd : EmailSendRequest)
    (tr : list Label) (w' : World) : Prop :=
  exists c, wstep (WIdle, w) (LRecv cmd) c /\ finishes c tr w'.

(** The recipient loop, lines 141-154, as a function. *)
Fixpoint deliver (cmd : EmailSendRequest) (body : string)
    (rs : list Recipient.t) (w : World) : list Label * World :=
  match rs with
  | [] => ([], w)
  | r :: rest =>
      let '(res, w1) := SendMail w (mail_call body r) in
      let '(tr, w2) := deliver cmd body rest w1 in
      (LMail (mail_call body r) res
         :: LPub (Result cmd) {| Error := res |} :: tr, w2)
  end.

(** The loop body of lines 134-155 for one dequeued request, given the
    order in which the map is ranged over. *)
Definition dispatch (order : list Recipient.t) (w : World)
    (cmd : EmailSendRequest) : list Label * World :=
  match Execute (template m) cmd with
  | (_, Some err) => ([LPub (Result cmd) {| Error := Some err |}], w)
  | (body, None) => deliver cmd body order w
  end.
End Worker.

Arguments auth {Template} m.
Arguments address {Template} m.
Arguments mail_call {Template} m body r.
Arguments directory {Template} m.
Arguments range_order {Template} m order.
Arguments wstep {World} SendMail {Template} Execute m.
Arguments finishes {World} SendMail {Template} Execute m.
Arguments cycle {World} SendMail {Template} Execute m.
Arguments deliver {World} SendMail {Template} m.
Arguments dispatch {World} SendMail {Template} Execute m.

(** ** The gateway: [clientHandler] *)

(** What the handler reads of an [http.Request]: the method, the remote
    address, and what [ParseForm] made of the URL and the body. *)
Record Request := {
  Method : string;
  RemoteAddr : string;
  ParseForm : option error;
  Form : gmap string (list string)
}.

(** Modelled from the spec: [r.FormValue(key)] is net/http's and not part of
    the repository.  The spec says that any missing field is treated as an
    empty string; a field that is there is given by its first value. *)
Definition FormValue (r : Request) (key : string) : string :=
  match Form r !! key with
  | Some (v :: _) => v
  | _ => ""
  end.

Record Response := { status : Z; body : string }.

Definition StatusOK : Z := 200.
Definition StatusBadRequest : Z := 400.
Definition StatusInternalServerError : Z := 500.
Definition StatusNotImplemented : Z := 501.

(** [http.Error(w, msg, code)] writes the status and [fmt.Fprintln(w, msg)]. *)
Definition http_Error (msg : string) (code : Z) : Response :=
  {| status := code; body := msg +:+ "
" |}.

(** A handler goroutine by the channel operations it performs: it ends with
    a response and the lines it logged, makes a channel, sends a request on
    the worker's queue, or receives from a reply channel. *)
Inductive Prog :=
| Ret (resp : Response) (log : list string)
| MakeChan (k : chan -> Prog)
| Submit (data : EmailSendRequest) (k : Prog)
| Await (ch : chan) (k : EmailSendOutcome -> Prog).

(** Lines 165-173: the request built from the form. *)
Definition build_request (r : Request) (result : chan) : EmailSendRequest :=
  {| IPAddress := RemoteAddr r;
     FirstName := FormValue r "firstName";
     LastName := FormValue r "lastName";
     CompanyName := FormValue r "company";
     EmailAddress := FormValue r "email";
     Description := FormValue r "description";
     Result := result |}.

(** The message of [errorLogger.Printf] at lines 177-184. *)
Definition error_log (data : EmailSendRequest) (err : error) : string :=
  "Error handling client (IP: " +:+ IPAddress data
  +:+ ", Name: " +:+ (FirstName data +:+ " " +:+ LastName data)
  +:+ ", Company: " +:+ CompanyName data
  +:+ ", Email: " +:+ EmailAddress data
  +:+ "): " +:+ err.

(** Lines 176-188: what the handler does with the outcome it received. *)
Definition respond (data : EmailSendRequest) (outcome : EmailSendOutcome) : Prog :=
  match Error outcome with
  | Some err =>
      Ret (http_Error "Internal Error" StatusInternalServerError)
          [error_log data err]
  | None => Ret {| status := StatusOK; body := "Success!" |} []
  end.

Definition clientHandler (r : Request) : Prog :=
  if String.eqb (Method r) "POST" then
    match ParseForm r with
    | Some _ => Ret (http_Error "Invalid Form" StatusBadRequest) []
    | None =>
        MakeChan (fun result =>
          let data := build_request r result in
          Submit data (Await result (respond data)))
    end
  else Ret (http_Error "Invalid request" StatusNotImplemented) [].

(** One handler goroutine run on its own: [fresh] is the channel that
    [make] returns, the worker takes what is sent on its queue, and [inbox]
    holds the outcomes that the reply channel will yield, in order. *)
Record Run := {
  response : option Response;
  logged : list string;
  submitted : list EmailSendRequest;
  received : list EmailSendOutcome;
  unread : list EmailSendOutcome
}.

Fixpoint run (p : Prog) (fresh : chan) (inbox : list EmailSendOutcome) : Run :=
  match p with
  | Ret resp log =>
      {| response := Some resp; logged := log; submitted := [];
         received := []; unread := inbox |}
  | MakeChan k => run (k fresh) (S fresh) inbox
  | Submit data k =>
      let r := run k fresh inbox in
      {| response := response r; logged := logged r;
         submitted := data :: submitted r;
         received := received r; unread := unread r |}
  | Await ch k =>
      match inbox with
      | [] =>
          {| response := None; logged := []; submitted := [];
             received := []; unread := [] |}
      | o :: inbox' =>
          let r := run (k o) fresh inbox' in
          {| response := response r; logged := logged r;
             submitted := submitted r;
             received := o :: received r; unread := unread r |}
      end
  end.

(** ** The process: one worker and the handler goroutines *)

Record Sys {World : Type} := {
  worker : WState;
  world : World;
  tasks : list Prog;
  next_chan : chan
}.
Arguments Sys : clear implicits.

(** What a step of the process is: goroutine [i] makes a channel, hands its
    request to the worker, receives an outcome, or the worker calls the SMTP
    client. *)
Inductive SLabel :=
| SMake (i : nat) (ch : chan)
| SSubmit (i : nat) (data : EmailSendRequest)
| SReply (i : nat) (ch : chan) (o : EmailSendOutcome)
| SMail (c : SendMailCall) (res : option error).

(** The handler goroutine that takes part in a step, if one does. *)
Definition actor (l : SLabel) : option nat :=
  match l with
  | SMake i _ | SSubmit i _ | SReply i _ _ => Some i
  | SMail _ _ => None
  end.

Section Process.
Variable World : Type.
Variable SendMail : World -> SendMailCall -> option error * World.
Variable Template : Type.
Variable Execute : Template -> EmailSendRequest -> string * option error.
Variable m : MailConfig Template.

(** Both channels are unbuffered: a send completes together with the
    matching receive. *)
Inductive step : Sys World -> SLabel -> Sys World -> Prop :=
| st_make s i k :
    tasks s !! i = Some (MakeChan k) ->
    step s (SMake i (next_chan s))
         {| worker := worker s; world := world s;
            tasks := <[i := k (next_chan s)]> (tasks s);
            next_chan := S (next_chan s) |}
| st_submit s i data k ws w :
    tasks s !! i = Some (Submit data k) ->
    wstep SendMail Execute m (worker s, world s) (LRecv data) (ws, w) ->
    step s (SSubmit i data)
         {| worker := ws; world := w;
            tasks := <[i := k]> (tasks s);
            next_chan := next_chan s |}
| st_reply s i ch k o ws w :
    tasks s !! i = Some (Await ch k) ->
    wstep SendMail Execute m (worker s, world s) (LPub ch o) (ws, w) ->
    step s (SReply i ch o)
         {| worker := ws; world := w;
            tasks := <[i := k o]> (tasks s);
            next_chan := next_chan s |}
| st_mail s c res ws w :
    wstep SendMail Execute m (worker s, world s) (LMail c res) (ws, w) ->
    step s (SMail c res)
         {| worker := ws; world := w;
            tasks := tasks s;
            next_chan := next_chan s |}.

Inductive steps : Sys World -> list SLabel -> Sys World -> Prop :=
| steps_nil s : steps s [] s
| steps_cons s l s' ls s'' :
    step s l s' -> steps s' ls s'' -> steps s (l :: ls) s''.

(** No goroutine can move: the process is deadlocked. *)
Definition stuck (s : Sys World) : Prop := forall l s', ~ step s l s'.

(** The process after start-up: the worker waits on its queue and one
    handler goroutine runs per inbound request. *)
Definition boot (w : World) (rs : list Request) : Sys World :=
  {| worker := WIdle; world := w;
     tasks := map clientHandler rs; next_chan := 0%nat |}.
End Process.

Arguments step {World} SendMail {Template} Execute m.
Arguments steps {World} SendMail {Template} Execute m.
Arguments stuck {World} SendMail {Template} Execute m.
Arguments boot {World} w rs.

(** ** The template engine *)

Module TextTemplate.
(** Modelled from the spec: the template engine is Go's [text/template],
    which is not part of the repository.  The spec gives its contract:
    the template is compiled once, rendering substitutes the request's
    named fields (remote identity, first name, last name, company name,
    email address, description), and a field the request does not have is
    a render-time error, not a silent blank.  The model covers templates
    made of literal text and field actions [{{.Name}}]. *)
Inductive Node :=
| NText (s : string)
| NField (name : string).

Definition is_space (c : ascii) : bool :=
  (Ascii.eqb c " " || Ascii.eqb c "009")%bool.

Definition is_ident_char (c : ascii) : bool :=
  let n := nat_of_ascii c in
  ((48 <=? n) && (n <=? 57) || (65 <=? n) && (n <=? 90)
   || (97 <=? n) && (n <=? 122) || (n =? 95))%nat%bool.

Fixpoint all_ident (s : string) : bool :=
  match s with
  | EmptyString => true
  | String c s' => (is_ident_char c && all_ident s')%bool
  end.

Fixpoint ltrim (s : string) : string :=
  match s with
  | String c s' => if is_space c then ltrim s' else s
  | EmptyString => EmptyString
  end.

Fixpoint rtrim (s : string) : string :=
  match s with
  | EmptyString => EmptyString
  | String c s' =>
      match rtrim s' with
      | EmptyString => if is_space c then EmptyString else String c EmptyString
      | t => String c t
      end
  end.

(** The text between [{{] and [}}]: a field of the request, or nothing
    this model covers. *)
Definition action (src : string) : option Node :=
  match rtrim (ltrim src) with
  | String "." name =>
      if (all_ident name && negb (String.eqb name ""))%bool
      then Some (NField name) else None
  | _ => None
  end.

Definition text (acc : string) : list Node :=
  match acc with
  | EmptyString => []
  | _ => [NText acc]
  end.

Definition snoc (acc : string) (c : ascii) : string :=
  acc +:+ String c EmptyString.

(** Splits the template text at the delimiters; [acc] is the text or the
    action read so far, and the delimiter looked for is [{{] in text and
    [}}] in an action.  [None]: an action that is not closed, or one
    outside the fragment. *)
Fixpoint scan (in_action : bool) (acc : string) (s : string)
    : option (list Node) :=
  match s with
  | EmptyString => if in_action then None else Some (text acc)
  | String c rest =>
      let closing := if in_action then "}"%char else "{"%char in
      match rest with
      | String c' rest' =>
          if (Ascii.eqb c closing && Ascii.eqb c' closing)%bool then
            if in_action then
              match action acc, scan false "" rest' with
              | Some n, Some ns => Some (n :: ns)
              | _, _ => None
              end
            else
              match scan true "" rest' with
              | Some ns => Some (text acc ++ ns)%list
              | None => None
              end
          else scan in_action (snoc acc c) rest
      | EmptyString => scan in_action (snoc acc c) rest
      end
  end.

(** [template.New("Body").Parse(text)] *)
Definition Parse (src : string) : option (list Node) := scan false "" src.

Definition field (cmd : EmailSendRequest) (name : string) : option string :=
  if String.eqb name "IPAddress" then Some (IPAddress cmd)
  else if String.eqb name "FirstName" then Some (FirstName cmd)
  else if String.eqb name "LastName" then Some (LastName cmd)
  else if String.eqb name "CompanyName" then Some (CompanyName cmd)
  else if String.eqb name "EmailAddress" then Some (EmailAddress cmd)
  else if String.eqb name "Description" then Some (Description cmd)
  else None.

(** [t.Execute(buf, cmd)]: the bytes written to [buf], and the error that
    stopped the execution, if one did. *)
Fixpoint Execute (t : list Node) (cmd : EmailSendRequest)
    : string * option error :=
  match t with
  | [] => ("", None)
  | NText s :: t' =>
      let '(out, err) := Execute t' cmd in (s +:+ out, err)
  | NField name :: t' =>
      match field cmd name with
      | Some v => let '(out, err) := Execute t' cmd in (v +:+ out, err)
      | None => ("", Some ("can't evaluate field " +:+ name
                           +:+ " in type cmd.EmailSendRequest"))
      end
  end.

(** [buf.String()] after rendering [src] against [cmd]. *)
Definition render (src : string) (cmd : EmailSendRequest) : option string :=
  match Parse src with
  | Some t =>
      match Execute t cmd with
      | (out, None) => Some out
      | (_, Some _) => None
      end
  | None => None
  end.
End TextTemplate.

(** [getConfig], line 119: the configuration with its template compiled;
    [None] where the program stops with a fatal error. *)
Definition getConfig (sender : SenderConfig.t)
    (recipients : list (string * Recipient.t)) (header : Header.t)
    (text : string) : option (MailConfig (list TextTemplate.Node)) :=
  match TextTemplate.Parse text with
  | Some t =>
      Some {| Sender := sender; Recipients := list_to_map recipients;
              Header := header; TemplateText := text; template := t |}
  | None => None
  end.

(** ** A deployment to run the definitions on *)

Module Demo.
Definition sender : SenderConfig.t :=
  SenderConfig.mk "smtp.example.org" 587 "docs@example.org" "Docs" "hunter2".

Definition header : Header.t :=
  Header.mk "Docs <docs@example.org>" "Documentation request"
            "MIME-version: 1.0;" "Content-Type: text/plain; charset=UTF-8;".

Definition alice : Recipient.t :=
  Recipient.mk "Alice" "Sales" "alice@example.org" AnyNil.
Definition bob : Recipient.t :=
  Recipient.mk "Bob" "Support" "bob@example.org" AnyNil.
Definition carol : Recipient.t :=
  Recipient.mk "Carol" "Legal" "carol@example.org" AnyNil.

Definition greeting : string := "Hello {{.FirstName}}".
Definition broken : string := "Hello {{.Nickname}}".

Definition config (recipients : list (string * Recipient.t)) (text : string)
    : MailConfig (list TextTemplate.Node) :=
  default {| Sender := sender; Recipients := ∅; Header := header;
             TemplateText := text; template := [] |}
          (getConfig sender recipients header text).

Definition nobody : list (string * Recipient.t) := [].
Definition one : list (string * Recipient.t) := [("alice", alice)].
Definition two : list (string * Recipient.t) :=
  [("alice", alice); ("bob", bob)].
Definition three : list (string * Recipient.t) :=
  [("alice", alice); ("bob", bob); ("carol", carol)].

(** An SMTP server that refuses Bob's mailbox and records what it
    accepted. *)
Definition SendMail (w : list SendMailCall) (c : SendMailCall)
    : option error * list SendMailCall :=
  if decide (call_to c = [Recipient.Address bob])
  then (Some "550 mailbox unavailable", w)
  else (None, (w ++ [c])%list).

Definition ana (result : chan) : EmailSendRequest :=
  {| IPAddress := "203.0.113.7:40112"; FirstName := "Ana";
     LastName := "Silva"; CompanyName := "Acme";
     EmailAddress := "ana@acme.example"; Description := "API docs";
     Result := result |}.

Definition post (fields : list (string * list string)) : Request :=
  {| Method := "POST"; RemoteAddr := "203.0.113.7:40112";
     ParseForm := None; Form := list_to_map fields |}.

Definition get : Request :=
  {| Method := "GET"; RemoteAddr := "203.0.113.7:40112";
     ParseForm := None; Form := ∅ |}.

(** The form that Ana posts; [build_request form ch] is [ana ch]. *)
Definition form : Request :=
  post [("firstName", ["Ana"]); ("lastName", ["Silva"]); ("company", ["Acme"]);
        ("email", ["ana@acme.example"]); ("description", ["API docs"])].

(** One cycle for Ana's request on a fresh SMTP server, ranging over the
    directory in the order [order]. *)
Definition cycle_in (recipients : list (string * Recipient.t)) (text : string)
    (order : list Recipient.t) : list Label * list SendMailCall :=
  dispatch SendMail TextTemplate.Execute (config recipients text) order []
           (ana 0%nat).
End Demo.

(** ** The stand-alone receiver: [main.go] *)

Module Main.
(** What [handleClient] reads of the request: the URL path, the method, and
    what [ioutil.ReadAll(r.Body)] returns. *)
Record Request := {
  Path : string;
  Method : string;
  Body : string + error
}.

(** The response, and what the handler printed on standard output. *)
Record Reply := {
  answer : Response;
  stdout : string
}.

Definition StatusNotFound : Z := 404.

(** [http.NotFound(w, r)] *)
Definition NotFound : Response := http_Error "404 page not found" StatusNotFound.

Definition handleClient (r : Request) : Reply :=
  if negb (String.eqb (Path r) "/") then
    {| answer := NotFound; stdout := "" |}
  else if String.eqb (Method r) "POST" then
    match Body r with
    | inr _ =>
        {| answer := http_Error "Failed to read the email request" 500;
           stdout := "" |}
    | inl reqBody =>
        {| answer := {| status := StatusOK; body := "Received it!" |};
           stdout := reqBody +:+ "
" |}
    end
  else
    {| answer := http_Error "Invalid request" StatusNotImplemented;
       stdout := "" |}.
End Main.

(** ** Start-up: [getConfig] and [checkFatalError] *)

(** A start-up step either stops the process through [fatalLogger.Fatalf]
    with the message logged, or goes on. *)
Inductive Startup (A : Type) :=
| Fatal (msg : string)
| Continue (a : A).
Arguments Fatal {A} msg.
Arguments Continue {A} a.

(** [checkFatalError(err, stage)] followed by [k]. *)
Definition checkFatalError {A} (err : option error) (stage : string)
    (k : Startup A) : Startup A :=
  match err with
  | Some e => Fatal ("@" +:+ stage +:+ ": " +:+ e +:+ "
")
  | None => k
  end.

(** What [yaml.Unmarshal] fills in of a [ServerConfig]. *)
Record ServerYaml := {
  yaml_Address : string;
  yaml_BaseURL : string;
  yaml_Sender : SenderConfig.t;
  yaml_Recipients : gmap string Recipient.t;
  yaml_Header : Header.t;
  yaml_TemplateText : string
}.

Record ServerConfig {Template : Type} := {
  ServerAddress : string;
  BaseURL : string;
  EmailConfig : MailConfig Template
}.
Arguments ServerConfig : clear implicits.

Section Startup.
(** The collaborators of start-up: the file system, the YAML decoder and the
    template compiler, each with the value it yields and its error. *)
Variable ReadFile : string -> string * option error.
Variable Unmarshal : string -> ServerYaml * option error.
Variable Template : Type.
Variable Parse : string -> Template * option error.

(** [ServerConfig.getConfig(filename)]: the configuration and the error it
    returns, when it returns. *)
Definition ServerConfig_getConfig (filename : string)
    : Startup (ServerConfig Template * option error) :=
  let '(yamlFile, err) := ReadFile filename in
  checkFatalError err "READING CONFIG FILE"
    (let '(y, err) := Unmarshal yamlFile in
     checkFatalError err "PARSING CONFIG FILE"
       (let '(t, err) := Parse (yaml_TemplateText y) in
        checkFatalError err "PARSING EMAIL TEMPLATE"
          (Continue
             ({| ServerAddress := yaml_Address y;
                 BaseURL := yaml_BaseURL y;
                 EmailConfig :=
                   {| Sender := yaml_Sender y;
                      Recipients := yaml_Recipients y;
                      Header := yaml_Header y;
                      TemplateText := yaml_TemplateText y;
                      template := t |} |}, None)))).

(** Lines 211-212 of [Execute]: load the configuration and check the error
    that [getConfig] returned. *)
Definition Execute_config (configFile : string)
    : Startup (ServerConfig Template) :=
  match ServerConfig_getConfig configFile with
  | Fatal msg => Fatal msg
  | Continue (cfg, err) =>
      checkFatalError err "READING/PARSING CONFIG FILE" (Continue cfg)
  end.
End Startup.

(** ** The SMTP calls of a cycle, one after the other *)

(** The calls [cs] made in turn, each on the world the call before it left:
    the results, and the world after the last call. *)
Fixpoint send_each {World : Type}
    (SendMail : World -> SendMailCall -> option error * World)
    (w : World) (cs : list SendMailCall) : list (option error) * World :=
  match cs with
  | [] => ([], w)
  | c :: cs' =>
      let '(res, w1) := SendMail w c in
      let '(rs, w2) := send_each SendMail w1 cs' in
      (res :: rs, w2)
  end.

(** ** The history of a run of the process *)

(** The channels made so far, each with the goroutine that made it. *)
Definition made (ls : list SLabel) : list (nat * chan) :=
  flat_map (fun l => match l with SMake i ch => [(i, ch)] | _ => [] end) ls.

(** The requests the worker has dequeued so far, each with the goroutine
    that submitted it. *)
Definition submits (ls : list SLabel) : list (nat * EmailSendRequest) :=
  flat_map (fun l => match l with SSubmit i data => [(i, data)] | _ => [] end) ls.

(** The goroutines that have received an Outcome so far. *)
Definition answered (ls : list SLabel) : list nat :=
  flat_map (fun l => match l with SReply i _ _ => [i] | _ => [] end) ls.

Definition last_submit (ls : list SLabel) : option (nat * EmailSendRequest) :=
  last (submits ls).

(** The channel on which a goroutine will next send its request's reply
    address or receive. *)
Definition waits_on (p : Prog) : option chan :=
  match p with
  | Submit data _ => Some (Result data)
  | Await ch _ => Some ch
  | _ => None
  end.

(** The program points of the handler of request [r]: at its start, about
    to submit (line 174), about to receive (line 175), and past the
    receive. *)
Inductive task_of (r : Request) : Prog -> Prop :=
| task_start : task_of r (clientHandler r)
| task_submitting ch :
    task_of r (Submit (build_request r ch)
                      (Await ch (respond (build_request r ch))))
| task_awaiting ch :
    task_of r (Await ch (respond (build_request r ch)))
| task_done ch o :
    task_of r (respond (build_request r ch) o).

Section ProcessInvariant.
Variable World : Type.
Variable SendMail : World -> SendMailCall -> option error * World.
Variable Template : Type.
Variable Execute : Template -> EmailSendRequest -> string * option error.
Variable m : MailConfig Template.
Variable rs : list Request.

(** Where the worker is in the cycle of request [d], in world [w]: [a]
    tells whether an Outcome of this cycle has been received, and [pre] are
    the recipients whose Outcome has been sent. *)
Inductive phase (d : EmailSendRequest) (w : World) : bool -> WState -> Prop :=
| ph_err out err :
    Execute (template m) d = (out, Some err) ->
    phase d w false (WReplyErr d err)
| ph_deliver (a : bool) body pre r rest :
    Execute (template m) d = (body, None) ->
    range_order m (pre ++ r :: rest)%list ->
    length pre = (if a then 1%nat else 0%nat) ->
    phase d w a (WDeliver d body r rest)
| ph_reply (a : bool) body pre r rest w1 res :
    Execute (template m) d = (body, None) ->
    range_order m (pre ++ r :: rest)%list ->
    length pre = (if a then 1%nat else 0%nat) ->
    SendMail w1 (mail_call m body r) = (res, w) ->
    phase d w a (WReply d body res rest).

(** The goroutine [i] that submitted [d]: it has its Outcome, or it waits
    for it. *)
Definition owner (s : Sys World) (i : nat) (d : EmailSendRequest)
    (a : bool) : Prop :=
  if a then exists resp log, tasks s !! i = Some (Ret resp log)
  else tasks s !! i = Some (Await (Result d) (respond d)).

(** What holds of every state [s] that the process reaches from start-up
    with the requests [rs], after the steps [ls]. *)
Record Inv (ls : list SLabel) (s : Sys World) : Prop := {
  inv_length : length (tasks s) = length rs;
  inv_tasks : forall i p, tasks s !! i = Some p ->
    exists r, rs !! i = Some r /\ task_of r p;
  inv_made : (made ls).*2 = seq 0 (next_chan s);
  inv_waits : forall i p ch, tasks s !! i = Some p ->
    waits_on p = Some ch -> (i, ch) ∈ made ls;
  inv_submits : forall i d, (i, d) ∈ submits ls ->
    exists r, rs !! i = Some r /\ d = build_request r (Result d)
      /\ (i, Result d) ∈ made ls;
  inv_answered : forall i, i ∈ answered ls ->
    exists resp log, tasks s !! i = Some (Ret resp log);
  inv_once : NoDup (answered ls);
  inv_worker :
    worker s = WIdle
    \/ exists i d a, last_submit ls = Some (i, d)
         /\ (i, Result d) ∈ made ls
         /\ phase d (world s) a (worker s)
         /\ owner s i d a;
  inv_await : forall j ch k, tasks s !! j = Some (Await ch k) ->
    (worker s <> WIdle /\ exists d, last_submit ls = Some (j, d))
    \/ size (Recipients m) = 0%nat
}.
End ProcessInvariant.

Arguments phase {World} SendMail {Template} Execute m.
Arguments owner {World} s i d a.
Arguments Inv {World} SendMail {Template} Execute m rs ls s.

(** ** Runs of the deployment *)

Module Run.
(** Two recipients: Ana's request has been dequeued and rendered, and the
    range visits Alice first. *)
Definition two : MailConfig (list TextTemplate.Node) :=
  Demo.config Demo.two Demo.greeting.

Definition mail_alice : SendMailCall := mail_call two "Hello Ana" Demo.alice.

Definition waiting : list Prog := [Await 0%nat (respond (Demo.ana 0%nat))].

Definition to_mail : list SLabel :=
  [SMake 0%nat 0%nat; SSubmit 0%nat (Demo.ana 0%nat)].

Definition before_mail : Sys (list SendMailCall) :=
  {| worker := WDeliver (Demo.ana 0%nat) "Hello Ana" Demo.alice [Demo.bob];
     world := []; tasks := waiting; next_chan := 1%nat |}.

Definition to_reply : list SLabel := (to_mail ++ [SMail mail_alice None])%list.

Definition before_reply : Sys (list SendMailCall) :=
  {| worker := WReply (Demo.ana 0%nat) "Hello Ana" None [Demo.bob];
     world := [mail_alice]; tasks := waiting; next_chan := 1%nat |}.

Definition after_reply : Sys (list SendMailCall) :=
  {| worker := WDeliver (Demo.ana 0%nat) "Hello Ana" Demo.bob [];
     world := [mail_alice];
     tasks := [Ret {| status := 200; body := "Success!" |} []];
     next_chan := 1%nat |}.

(** Three recipients, ranged over as Alice, Bob, Carol: the caller has its
    Outcome, Bob's mail has been tried, and the worker holds Bob's Outcome. *)
Definition three : MailConfig (list TextTemplate.Node) :=
  Demo.config Demo.three Demo.greeting.

Definition to_wedged : list SLabel :=
  [SMake 0%nat 0%nat; SSubmit 0%nat (Demo.ana 0%nat);
   SMail (mail_call three "Hello Ana" Demo.alice) None;
   SReply 0%nat 0%nat {| Error := None |};
   SMail (mail_call three "Hello Ana" Demo.bob)
         (Some "550 mailbox unavailable")].

Definition wedged : Sys (list SendMailCall) :=
  {| worker := WReply (Demo.ana 0%nat) "Hello Ana"
                      (Some "550 mailbox unavailable") [Demo.carol];
     world := [mail_call three "Hello Ana" Demo.alice];
     tasks := [Ret {| status := 200; body := "Success!" |} []];
     next_chan := 1%nat |}.

(** A POST whose form could not be parsed. *)
Definition unparsed : Request :=
  {| Method := "POST"; RemoteAddr := "203.0.113.7:40112";
     ParseForm := Some "invalid URL escape"; Form := ∅ |}.

(** No recipient and a template that does not render. *)
Definition nobody : MailConfig (list TextTemplate.Node) :=
  Demo.config Demo.nobody Demo.broken.

Definition render_error : error :=
  "can't evaluate field Nickname in type cmd.EmailSendRequest".

Definition failed : Sys (list SendMailCall) :=
  {| worker := WReplyErr (Demo.ana 0%nat) render_error;
     world := []; tasks := waiting; next_chan := 1%nat |}.

Definition after_failed : Sys (list SendMailCall) :=
  {| worker := WIdle; world := [];
     tasks := [respond (Demo.ana 0%nat) {| Error := Some render_error |}];
     next_chan := 1%nat |}.

(** One recipient: Ana's request has been served. *)
Definition one : MailConfig (list TextTemplate.Node) :=
  Demo.config Demo.one Demo.greeting.

Definition to_served : list SLabel :=
  [SMake 0%nat 0%nat; SSubmit 0%nat (Demo.ana 0%nat);
   SMail (mail_call one "Hello Ana" Demo.alice) None;
   SReply 0%nat 0%nat {| Error := None |}].

Definition served : Sys (list SendMailCall) :=
  {| worker := WIdle; world := [mail_call one "Hello Ana" Demo.alice];
     tasks := [Ret {| status := 200; body := "Success!" |} []];
     next_chan := 1%nat |}.
End Run.

(** ** The handler's channel operations, in order *)

(** What a handler goroutine does, one operation after the other. *)
Inductive Op :=
| OpMake (ch : chan)
| OpSubmit (data : EmailSendRequest)
| OpRecv (ch : chan) (o : EmailSendOutcome)
| OpRespond (resp : Response).

(** The operations of a handler run on its own, as in [run]: [fresh] is the
    channel that [make] returns and [inbox] what the reply channel yields;
    the list ends where the goroutine has responded or waits for good. *)
Fixpoint ops (p : Prog) (fresh : chan) (inbox : list EmailSendOutcome)
    : list Op :=
  match p with
  | Ret resp _ => [OpRespond resp]
  | MakeChan k => OpMake fresh :: ops (k fresh) (S fresh) inbox
  | Submit data k => OpSubmit data :: ops k fresh inbox
  | Await ch k =>
      match inbox with
      | [] => []
      | o :: inbox' => OpRecv ch o :: ops (k o) fresh inbox'
      end
  end.

(** ** The SMTP calls of the current cycle *)

(** The SMTP calls, with their results, that the worker has made since it
    last dequeued a request. *)
Definition cycle_mails (ls : list SLabel) : list (SendMailCall * option error) :=
  fold_left (fun acc l => match l with
                          | SSubmit _ _ => []
                          | SMail c res => (acc ++ [(c, res)])%list
                          | _ => acc
                          end) ls [].

(** All the SMTP calls of a run, with their results. *)
Definition all_mails (ls : list SLabel) : list (SendMailCall * option error) :=
  flat_map (fun l => match l with SMail c res => [(c, res)] | _ => [] end) ls.

Section CycleHistory.
Variable Template : Type.
Variable m : MailConfig Template.

(** The worker's program point in the cycle of [d] against the calls made
    so far in that cycle: [pre] are the recipients visited before the
    current one. *)
Inductive visited (d : EmailSendRequest) (ls : list SLabel) : WState -> Prop :=
| vis_err err :
    cycle_mails ls = [] ->
    visited d ls (WReplyErr d err)
| vis_deliver body pre r rest :
    range_order m (pre ++ r :: rest)%list ->
    (cycle_mails ls).*1 = mail_call m body <$> pre ->
    visited d ls (WDeliver d body r rest)
| vis_reply body pre r rest res earlier :
    range_order m (pre ++ r :: rest)%list ->
    earlier.*1 = mail_call m body <$> pre ->
    cycle_mails ls = (earlier ++ [(mail_call m body r, res)])%list ->
    visited d ls (WReply d body res rest).
End CycleHistory.

Arguments visited {Template} m d ls.

(** No goroutine of a process with at most two handlers is at [j] with the
    shape that [Hj] asks for. *)
Ltac no_such_task Hj j :=
  destruct j as [|[|j]]; simpl in Hj; discriminate.

Example format_int_587 : format_int 587 = "587".
Proof. reflexivity. Qed.

Example parse_greeting :
  TextTemplate.Parse Demo.greeting
  = Some [TextTemplate.NText "Hello "; TextTemplate.NField "FirstName"].
Proof. reflexivity. Qed.


(** ** The worker: one dispatch cycle *)

Section WorkerFacts.
Context {World : Type} (SendMail : World -> SendMailCall -> option error * World).
Context {Template : Type}
        (Execute : Template -> EmailSendRequest -> string * option error).
Context (m : MailConfig Template).

Local Abbreviation Step := (wstep SendMail Execute m).
Local Abbreviation Finishes := (finishes SendMail Execute m).
Local Abbreviation Cycle := (cycle SendMail Execute m).
Local Abbreviation Deliver := (deliver SendMail m).
Local Abbreviation Dispatch := (dispatch SendMail Execute m).

Lemma length_directory : length (directory m) = size (Recipients m).
Proof. unfold directory. by rewrite length_fmap, length_map_to_list. Qed.

Lemma elem_of_directory r :
  r ∈ directory m <-> exists key, Recipients m !! key = Some r.
Proof.
  unfold directory. rewrite list_elem_of_fmap. split.
  - intros [[key r'] [-> Hin]]. exists key. by apply elem_of_map_to_list.
  - intros [key Hkey]. exists (key, r). split; [done|].
    by apply elem_of_map_to_list.
Qed.

Lemma range_order_directory : range_order m (directory m).
Proof. unfold range_order. reflexivity. Qed.

(** The loop as a function and the loop as steps are the same runs. *)
Lemma finishes_deliver cmd body rs w tr w' :
  Finishes (loop_head cmd body rs, w) tr w' <-> Deliver cmd body rs w = (tr, w').
Proof.
  revert w tr. induction rs as [|r rest IH]; intros w tr; simpl.
  - split.
    + inversion 1; subst; [done|]. by simpl in *.
    + intros [= <- <-]. constructor.
  - destruct (SendMail w (mail_call m body r)) as [res w1] eqn:Hsend.
    destruct (Deliver cmd body rest w1) as [tr2 w2] eqn:Hrest.
    split.
    + inversion 1 as [|c l c' tr1 w0 _ Hstep Hfin]; subst.
      inversion Hstep; subst.
      inversion Hfin as [|c l c' tr3 w0 _ Hstep2 Hfin2]; subst.
      inversion Hstep2; subst.
      apply IH in Hfin2. congruence.
    + intros [= <- <-].
      eapply fin_step; [done|by apply ws_mail|].
      eapply fin_step; [done|apply ws_reply|].
      by apply IH.
Qed.

Lemma cycle_dispatch w cmd tr w' :
  Cycle w cmd tr w'
  <-> exists order, range_order m order /\ Dispatch order w cmd = (tr, w').
Proof.
  unfold cycle, dispatch. split.
  - intros (c & Hrecv & Hfin). inversion Hrecv as [? ? out err Hex|? ? body order Hex Hord| | |]; subst.
    + exists (directory m). split; [apply range_order_directory|].
      rewrite Hex.
      inversion Hfin as [|c l c' tr1 w0 _ Hstep Hfin1]; subst.
      inversion Hstep; subst. inversion Hfin1; subst; [done|by simpl in *].
    + exists order. split; [done|]. rewrite Hex. by apply finishes_deliver.
  - intros (order & Hord & Hd).
    destruct (Execute (template m) cmd) as [body [err|]] eqn:Hex.
    + injection Hd as <- <-. eexists. split; [by eapply ws_recv_fail|].
      eapply fin_step; [done|apply ws_reply_err|constructor].
    + eexists. split; [by eapply ws_recv_ok|]. by apply finishes_deliver.
Qed.

(** The worker dequeues whenever it is idle, and every cycle can run to
    its end when the reply channel is read. *)
Lemma cycle_total w cmd : exists tr w', Cycle w cmd tr w'.
Proof.
  destruct (Dispatch (directory m) w cmd) as [tr w'] eqn:Hd.
  exists tr, w'. apply cycle_dispatch. eauto using range_order_directory.
Qed.

Lemma mails_deliver cmd body rs w :
  (mails (Deliver cmd body rs w).1).*1 = mail_call m body <$> rs.
Proof.
  revert w. induction rs as [|r rest IH]; intros w; simpl; [done|].
  destruct (SendMail w (mail_call m body r)) as [res w1].
  specialize (IH w1). destruct (Deliver cmd body rest w1) as [tr2 w2].
  simpl. f_equal. exact IH.
Qed.

Lemma deliver_attempts cmd body rs w :
  (Deliver cmd body rs w).1
  = flat_map (attempt (Result cmd)) (mails (Deliver cmd body rs w).1).
Proof.
  revert w. induction rs as [|r rest IH]; intros w; simpl; [done|].
  destruct (SendMail w (mail_call m body r)) as [res w1].
  specialize (IH w1). destruct (Deliver cmd body rest w1) as [tr2 w2].
  simpl in *. do 2 f_equal. exact IH.
Qed.

Lemma outcomes_attempts ch ps :
  outcomes ch (flat_map (attempt ch) ps)
  = (fun p => {| Error := p.2 |}) <$> ps.
Proof.
  induction ps as [|p ps IH]; simpl; [done|].
  rewrite decide_True by done. simpl. f_equal. apply IH.
Qed.

Lemma mails_attempts ch ps : mails (flat_map (attempt ch) ps) = ps.
Proof.
  induction ps as [|[c res] ps IH]; simpl; [done|]. by rewrite IH.
Qed.

Lemma dispatch_cycle order w cmd :
  range_order m order ->
  Cycle w cmd (Dispatch order w cmd).1 (Dispatch order w cmd).2.
Proof.
  intros Hord. apply cycle_dispatch. exists order. split; [done|].
  by destruct (Dispatch order w cmd).
Qed.

(** What one cycle leaves on the trace when rendering succeeded: the mails
    are those of some range order, each followed by its outcome. *)
Lemma cycle_rendered w cmd body tr w' :
  Execute (template m) cmd = (body, None) ->
  Cycle w cmd tr w' ->
  exists order, range_order m order
    /\ (mails tr).*1 = mail_call m body <$> order
    /\ tr = flat_map (attempt (Result cmd)) (mails tr).
Proof.
  intros Hex (order & Hord & Hd)%cycle_dispatch.
  unfold dispatch in Hd. rewrite Hex in Hd.
  exists order. split; [done|].
  replace tr with (Deliver cmd body order w).1 by (by rewrite Hd).
  split; [apply mails_deliver|apply deliver_attempts].
Qed.

(** What one cycle leaves on the trace when rendering failed. *)
Lemma cycle_not_rendered w cmd out err tr w' :
  Execute (template m) cmd = (out, Some err) ->
  Cycle w cmd tr w' ->
  tr = [LPub (Result cmd) {| Error := Some err |}] /\ w' = w.
Proof.
  intros Hex (order & Hord & Hd)%cycle_dispatch.
  unfold dispatch in Hd. rewrite Hex in Hd. by injection Hd as <- <-.
Qed.

(** C1, as amended: a completed dispatch cycle publishes on the request's
    reply channel as many Outcomes as the directory has recipients when
    rendering succeeds, and exactly one Outcome when rendering fails. *)
Theorem outcomes_per_cycle w cmd tr w' :
  Cycle w cmd tr w' ->
  length (outcomes (Result cmd) tr)
  = match (Execute (template m) cmd).2 with
    | None => size (Recipients m)
    | Some _ => 1%nat
    end.
Proof.
  intros Hcy. destruct (Execute (template m) cmd) as [body [err|]] eqn:Hex; simpl.
  - destruct (cycle_not_rendered _ _ _ _ _ _ Hex Hcy) as [-> _].
    simpl. by rewrite decide_True.
  - destruct (cycle_rendered _ _ _ _ _ Hex Hcy) as (order & Hord & Hm & Htr).
    rewrite Htr, outcomes_attempts, length_fmap.
    rewrite <- (length_fmap fst), Hm, length_fmap.
    rewrite <- length_directory. by apply Permutation_length.
Qed.

(** C3, as amended: when rendering fails the worker publishes exactly one
    Outcome, which carries the render error, whatever the number of
    recipients; it does not call the Delivery Client, and it is idle again
    and dequeues the next request. *)
Theorem render_failure_cycle w cmd out err :
  Execute (template m) cmd = (out, Some err) ->
  Cycle w cmd [LPub (Result cmd) {| Error := Some err |}] w
  /\ (forall tr w', Cycle w cmd tr w' ->
        outcomes (Result cmd) tr = [{| Error := Some err |}]
        /\ mails tr = [] /\ w' = w)
  /\ (forall next, exists c, Step (WIdle, w) (LRecv next) c).
Proof.
  intros Hex. split; [|split].
  - apply cycle_dispatch. exists (directory m).
    split; [apply range_order_directory|]. unfold dispatch. by rewrite Hex.
  - intros tr w' Hcy.
    destruct (cycle_not_rendered _ _ _ _ _ _ Hex Hcy) as [-> ->].
    simpl. by rewrite decide_True.
  - intros next. destruct (cycle_total w next) as (tr & w' & c & Hstep & _).
    by exists c.
Qed.

(** C7, as amended: a cycle attempts the recipients in the order of its own
    range over the map, which is a permutation of the directory, and
    publishes the Outcomes in the order of the attempts; every permutation
    is the order of some cycle, so two cycles over the same directory need
    not agree. *)
Theorem range_visits_directory w cmd body tr w' :
  Execute (template m) cmd = (body, None) ->
  Cycle w cmd tr w' ->
  (mails tr).*1 ≡ₚ mail_call m body <$> directory m
  /\ outcomes (Result cmd) tr = (fun p => {| Error := p.2 |}) <$> mails tr
  /\ (forall order, order ≡ₚ directory m ->
        exists tr2 w2, Cycle w cmd tr2 w2
          /\ (mails tr2).*1 = mail_call m body <$> order).
Proof.
  intros Hex Hcy.
  destruct (cycle_rendered _ _ _ _ _ Hex Hcy) as (order & Hord & Hm & Htr).
  split; [|split].
  - rewrite Hm. by apply fmap_Permutation.
  - rewrite Htr at 1. apply outcomes_attempts.
  - intros order2 Hord2.
    destruct (Deliver cmd body order2 w) as [tr2 w2] eqn:Hd.
    exists tr2, w2. split.
    + apply cycle_dispatch. exists order2. split; [done|].
      unfold dispatch. by rewrite Hex.
    + replace tr2 with (Deliver cmd body order2 w).1 by (by rewrite Hd).
      apply mails_deliver.
Qed.
End WorkerFacts.

(** ** The gateway *)

Lemma clientHandler_post r :
  Method r = "POST" -> ParseForm r = None ->
  clientHandler r
  = MakeChan (fun result =>
      Submit (build_request r result)
             (Await result (respond (build_request r result)))).
Proof. intros HM HP. unfold clientHandler. by rewrite HM, HP. Qed.

Lemma clientHandler_other r :
  Method r <> "POST" ->
  clientHandler r = Ret (http_Error "Invalid request" StatusNotImplemented) [].
Proof.
  intros HM. unfold clientHandler.
  by apply String.eqb_neq in HM as ->.
Qed.

Lemma FormValue_missing r key : Form r !! key = None -> FormValue r key = "".
Proof. intros H. unfold FormValue. by rewrite H. Qed.

(** C6: the handler of a POST request submits one SendRequest and reads
    exactly one Outcome from its reply channel, leaving any further one
    unread; an Outcome with an error gives the response "Internal Error"
    with status 500, the same for every error, and the cause goes to the
    log only; an Outcome without error gives "Success!". *)
Theorem gateway_reads_one_outcome r fresh o inbox :
  Method r = "POST" -> ParseForm r = None ->
  let data := build_request r fresh in
  run (clientHandler r) fresh [] 
  = {| response := None; logged := []; submitted := [data];
       received := []; unread := [] |}
  /\ run (clientHandler r) fresh (o :: inbox)
     = {| response :=
            Some (match Error o with
                  | Some _ => {| status := 500; body := "Internal Error
" |}
                  | None => {| status := 200; body := "Success!" |}
                  end);
          logged := match Error o with
                    | Some err => [error_log data err]
                    | None => []
                    end;
          submitted := [data];
          received := [o];
          unread := inbox |}.
Proof.
  intros HM HP data. rewrite clientHandler_post by done. simpl.
  split; [done|]. unfold respond. by destruct (Error o).
Qed.

(** C8, as amended: the SendRequest that the handler submits for a POST
    request whose form parses takes each caller-supplied field from the
    form, and a field the form does not have is the empty string; the
    request is submitted whatever the fields are. *)
Theorem missing_fields_are_empty r fresh inbox :
  Method r = "POST" -> ParseForm r = None ->
  exists data,
    submitted (run (clientHandler r) fresh inbox) = [data]
    /\ IPAddress data = RemoteAddr r
    /\ (Form r !! "firstName" = None -> FirstName data = "")
    /\ (Form r !! "lastName" = None -> LastName data = "")
    /\ (Form r !! "company" = None -> CompanyName data = "")
    /\ (Form r !! "email" = None -> EmailAddress data = "")
    /\ (Form r !! "description" = None -> Description data = "").
Proof.
  intros HM HP. exists (build_request r fresh).
  rewrite clientHandler_post by done.
  split.
  - destruct inbox as [|o inbox]; simpl; [done|].
    unfold respond. by destruct (Error o).
  - simpl. repeat split; try done; apply FormValue_missing.
Qed.

(** ** The process *)

Section ProcessFacts.
Context {World : Type} (SendMail : World -> SendMailCall -> option error * World).
Context {Template : Type}
        (Execute : Template -> EmailSendRequest -> string * option error).
Context (m : MailConfig Template).

(** A goroutine that has responded takes part in no further step. *)
Lemma finished_task_idle (s s' : Sys World) i l resp log :
  tasks s !! i = Some (Ret resp log) ->
  step SendMail Execute m s l s' ->
  actor l <> Some i /\ tasks s' !! i = Some (Ret resp log).
Proof.
  intros Hi Hstep.
  inversion Hstep as [? j k Hj|? j data k ws w Hj|? j ch k o ws w Hj|];
    subst; simpl.
  1-3: assert (i <> j) by (intros ->; congruence).
  1-3: split; [congruence|by rewrite list_lookup_insert_ne].
  done.
Qed.

(** C10: the handler of a request whose method is not POST responds
    "Invalid request" with status 501 and submits nothing; its goroutine
    takes part in no step of the process, and a process with no other
    request never moves, so the worker stays as it was. *)
Theorem non_post_rejected r :
  Method r <> "POST" ->
  (forall fresh inbox,
      run (clientHandler r) fresh inbox
      = {| response := Some {| status := 501; body := "Invalid request
" |};
           logged := []; submitted := []; received := []; unread := inbox |})
  /\ (forall (s s' : Sys World) i l,
        tasks s !! i = Some (clientHandler r) ->
        step SendMail Execute m s l s' ->
        actor l <> Some i /\ tasks s' !! i = Some (clientHandler r)
        /\ (forall data, l <> SSubmit i data))
  /\ (forall w, stuck SendMail Execute m (boot w [r])).
Proof.
  intros HM. rewrite (clientHandler_other r HM). split; [done|split].
  - intros s s' i l Hi Hstep.
    destruct (finished_task_idle _ _ _ _ _ _ Hi Hstep) as [Ha Ht].
    repeat split; try done. intros data ->. by apply Ha.
  - intros w l s' Hstep. unfold boot in Hstep. simpl in Hstep.
    rewrite (clientHandler_other r HM) in Hstep.
    inversion Hstep as [? j k Hj|? j data k ws w0 Hj|? j ch k o ws w0 Hj|? c res ws w0 Hw];
      subst; simpl in *.
    1-3: by destruct j as [|[|j]].
    inversion Hw.
Qed.
End ProcessFacts.

(** ** The template of the spec's example *)

(** C9: the template "Hello {{.FirstName}}" compiles, and rendering it
    against a request whose first name is "Ana" writes exactly
    "Hello Ana" and reports no error. *)
Theorem render_hello_ana cmd :
  FirstName cmd = "Ana" ->
  TextTemplate.render "Hello {{.FirstName}}" cmd = Some "Hello Ana"
  /\ exists t, TextTemplate.Parse "Hello {{.FirstName}}" = Some t
       /\ TextTemplate.Execute t cmd = ("Hello Ana", None).
Proof.
  intros HF. unfold TextTemplate.render.
  replace (TextTemplate.Parse "Hello {{.FirstName}}")
    with (Some [TextTemplate.NText "Hello "; TextTemplate.NField "FirstName"])
    by reflexivity.
  simpl. rewrite HF. split; [done|].
  eexists. split; [reflexivity|]. simpl. by rewrite HF.
Qed.

Lemma render_hello_ana_witness :
  FirstName (Demo.ana 0%nat) = "Ana"
  /\ TextTemplate.render "Hello {{.FirstName}}" (Demo.ana 0%nat)
     = Some "Hello Ana".
Proof.
  split; [reflexivity|].
  exact (proj1 (render_hello_ana (Demo.ana 0%nat) eq_refl)).
Defined.

(** ** The deployment, run *)

Lemma directory_two :
  directory (Demo.config Demo.two Demo.greeting) = [Demo.alice; Demo.bob].
Proof. vm_compute. reflexivity. Qed.

Lemma range_order_two_swapped :
  range_order (Demo.config Demo.two Demo.greeting) [Demo.bob; Demo.alice].
Proof. unfold range_order. rewrite directory_two. apply Permutation_swap. Qed.

Lemma cycle_in_cycle recipients text :
  cycle Demo.SendMail TextTemplate.Execute (Demo.config recipients text) []
        (Demo.ana 0%nat)
        (Demo.cycle_in recipients text (directory (Demo.config recipients text))).1
        (Demo.cycle_in recipients text (directory (Demo.config recipients text))).2.
Proof. apply dispatch_cycle, range_order_directory. Qed.

Lemma outcomes_per_cycle_witness :
  let m := Demo.config Demo.two Demo.greeting in
  let tr := (Demo.cycle_in Demo.two Demo.greeting (directory m)).1 in
  let w' := (Demo.cycle_in Demo.two Demo.greeting (directory m)).2 in
  cycle Demo.SendMail TextTemplate.Execute m [] (Demo.ana 0%nat) tr w'
  /\ length (outcomes 0%nat tr) = 2%nat.
Proof.
  intros m tr w'.
  pose proof (cycle_in_cycle Demo.two Demo.greeting) as H.
  split; [exact H|].
  exact (outcomes_per_cycle Demo.SendMail TextTemplate.Execute m []
           (Demo.ana 0%nat) tr w' H).
Defined.

(** C1 fails as stated: with two recipients and a template that does not
    render, the cycle publishes one Outcome, not two. *)
Lemma outcomes_per_cycle_counterexample :
  let m := Demo.config Demo.two Demo.broken in
  exists tr w',
    cycle Demo.SendMail TextTemplate.Execute m [] (Demo.ana 0%nat) tr w'
    /\ size (Recipients m) = 2%nat
    /\ length (outcomes (Result (Demo.ana 0%nat)) tr) = 1%nat
    /\ length (outcomes (Result (Demo.ana 0%nat)) tr) <> size (Recipients m).
Proof.
  intros m. eexists _, _. split; [apply (cycle_in_cycle Demo.two Demo.broken)|].
  vm_compute. repeat split; done.
Qed.

Lemma render_failure_cycle_witness :
  let m := Demo.config Demo.three Demo.broken in
  let err := "can't evaluate field Nickname in type cmd.EmailSendRequest" in
  TextTemplate.Execute (template m) (Demo.ana 0%nat) = ("Hello ", Some err)
  /\ cycle Demo.SendMail TextTemplate.Execute m [] (Demo.ana 0%nat)
           [LPub 0%nat {| Error := Some err |}] [].
Proof.
  intros m err.
  assert (TextTemplate.Execute (template m) (Demo.ana 0%nat)
          = ("Hello ", Some err)) as H by reflexivity.
  split; [exact H|].
  exact (proj1 (render_failure_cycle Demo.SendMail TextTemplate.Execute m []
                  (Demo.ana 0%nat) "Hello " err H)).
Defined.

(** C3 fails as stated: with three recipients and a template that does not
    render, the worker publishes one failure Outcome, not three. *)
Lemma render_failure_cycle_counterexample :
  let m := Demo.config Demo.three Demo.broken in
  exists tr w',
    cycle Demo.SendMail TextTemplate.Execute m [] (Demo.ana 0%nat) tr w'
    /\ (TextTemplate.Execute (template m) (Demo.ana 0%nat)).2
       = Some "can't evaluate field Nickname in type cmd.EmailSendRequest"
    /\ size (Recipients m) = 3%nat
    /\ outcomes (Result (Demo.ana 0%nat)) tr
       = [{| Error := Some "can't evaluate field Nickname in type cmd.EmailSendRequest" |}].
Proof.
  intros m. eexists _, _.
  split; [apply (cycle_in_cycle Demo.three Demo.broken)|].
  vm_compute. repeat split; done.
Qed.

(** Bob's mailbox is refused and Alice still gets her mail, whichever of
    the two is attempted first. *)
Example bob_refused_alice_served :
  outcomes 0%nat (Demo.cycle_in Demo.two Demo.greeting [Demo.bob; Demo.alice]).1
  = [{| Error := Some "550 mailbox unavailable" |}; {| Error := None |}]
  /\ call_to <$> (Demo.cycle_in Demo.two Demo.greeting [Demo.bob; Demo.alice]).2
     = [["alice@example.org"]].
Proof. vm_compute. done. Qed.

Lemma range_visits_directory_witness :
  let m := Demo.config Demo.two Demo.greeting in
  let tr := (Demo.cycle_in Demo.two Demo.greeting (directory m)).1 in
  let w' := (Demo.cycle_in Demo.two Demo.greeting (directory m)).2 in
  TextTemplate.Execute (template m) (Demo.ana 0%nat) = ("Hello Ana", None)
  /\ cycle Demo.SendMail TextTemplate.Execute m [] (Demo.ana 0%nat) tr w'
  /\ (mails tr).*1 ≡ₚ mail_call m "Hello Ana" <$> directory m
  /\ outcomes 0%nat tr = (fun p => {| Error := p.2 |}) <$> mails tr.
Proof.
  intros m tr w'.
  assert (TextTemplate.Execute (template m) (Demo.ana 0%nat)
          = ("Hello Ana", None)) as Hex by reflexivity.
  pose proof (cycle_in_cycle Demo.two Demo.greeting) as Hcy.
  split; [exact Hex|]. split; [exact Hcy|].
  destruct (range_visits_directory Demo.SendMail TextTemplate.Execute m []
              (Demo.ana 0%nat) "Hello Ana" tr w' Hex Hcy) as (Hp & Ho & _).
  split; [exact Hp|exact Ho].
Defined.

(** C7 fails as stated: two cycles over the same directory of two
    recipients, for the same request and the same SMTP server, attempt the
    recipients in different orders and publish the Outcomes in different
    orders. *)
Lemma range_visits_directory_counterexample :
  let m := Demo.config Demo.two Demo.greeting in
  exists tr1 w1 tr2 w2,
    cycle Demo.SendMail TextTemplate.Execute m [] (Demo.ana 0%nat) tr1 w1
    /\ cycle Demo.SendMail TextTemplate.Execute m [] (Demo.ana 0%nat) tr2 w2
    /\ call_to <$> (mails tr1).*1 = [["alice@example.org"]; ["bob@example.org"]]
    /\ call_to <$> (mails tr2).*1 = [["bob@example.org"]; ["alice@example.org"]]
    /\ outcomes 0%nat tr1 <> outcomes 0%nat tr2.
Proof.
  intros m. eexists _, _, _, _. split; [|split].
  - apply (dispatch_cycle Demo.SendMail TextTemplate.Execute m
             [Demo.alice; Demo.bob]).
    unfold range_order, m. by rewrite directory_two.
  - apply (dispatch_cycle Demo.SendMail TextTemplate.Execute m
             [Demo.bob; Demo.alice]).
    apply range_order_two_swapped.
  - vm_compute. repeat split; done.
Qed.

Lemma gateway_reads_one_outcome_witness :
  let o := {| Error := Some "550 mailbox unavailable" |} in
  let late := {| Error := None |} in
  Method Demo.form = "POST" /\ ParseForm Demo.form = None
  /\ run (clientHandler Demo.form) 0%nat [o; late]
     = {| response := Some {| status := 500; body := "Internal Error
" |};
          logged := [error_log (Demo.ana 0%nat) "550 mailbox unavailable"];
          submitted := [Demo.ana 0%nat];
          received := [o];
          unread := [late] |}.
Proof.
  intros o late. split; [reflexivity|]. split; [reflexivity|].
  exact (proj2 (gateway_reads_one_outcome Demo.form 0%nat o [late]
                  eq_refl eq_refl)).
Defined.

Lemma missing_fields_are_empty_witness :
  let r := Demo.post [("firstName", ["Ana"])] in
  Method r = "POST" /\ ParseForm r = None
  /\ exists data,
       submitted (run (clientHandler r) 0%nat []) = [data]
       /\ IPAddress data = RemoteAddr r
       /\ (Form r !! "firstName" = None -> FirstName data = "")
       /\ (Form r !! "lastName" = None -> LastName data = "")
       /\ (Form r !! "company" = None -> CompanyName data = "")
       /\ (Form r !! "email" = None -> EmailAddress data = "")
       /\ (Form r !! "description" = None -> Description data = "").
Proof.
  intros r. split; [reflexivity|]. split; [reflexivity|].
  exact (missing_fields_are_empty r 0%nat [] eq_refl eq_refl).
Defined.

(** A form with the first name only: the other four fields are empty in
    the request that is submitted. *)
Example first_name_only :
  submitted (run (clientHandler (Demo.post [("firstName", ["Ana"])])) 0%nat [])
  = [{| IPAddress := "203.0.113.7:40112"; FirstName := "Ana";
        LastName := ""; CompanyName := ""; EmailAddress := "";
        Description := ""; Result := 0%nat |}].
Proof. vm_compute. reflexivity. Qed.

Lemma non_post_rejected_witness :
  Method Demo.get <> "POST"
  /\ run (clientHandler Demo.get) 0%nat []
     = {| response := Some {| status := 501; body := "Invalid request
" |};
          logged := []; submitted := []; received := []; unread := [] |}.
Proof.
  assert (Method Demo.get <> "POST") as H by discriminate.
  split; [exact H|].
  exact (proj1 (non_post_rejected Demo.SendMail TextTemplate.Execute
                  (Demo.config Demo.two Demo.greeting) Demo.get H) 0%nat []).
Defined.

(** With one recipient the process serves the caller and is ready for the
    next request. *)
Example one_recipient_answered :
  exists ls s,
    steps Demo.SendMail TextTemplate.Execute
          (Demo.config Demo.one Demo.greeting) (boot [] [Demo.form]) ls s
    /\ worker s = WIdle
    /\ tasks s = [Ret {| status := 200; body := "Success!" |} []]
    /\ call_to <$> world s = [["alice@example.org"]].
Proof.
  eexists _, _. split.
  - eapply steps_cons.
    { eapply st_make with (i := 0%nat). reflexivity. }
    eapply steps_cons.
    { eapply st_submit with (i := 0%nat); [reflexivity|].
      eapply ws_recv_ok with (order := [Demo.alice]); [reflexivity|].
      unfold range_order. vm_compute. reflexivity. }
    eapply steps_cons.
    { eapply st_mail. eapply ws_mail. reflexivity. }
    eapply steps_cons.
    { eapply st_reply with (i := 0%nat); [reflexivity|]. apply ws_reply. }
    apply steps_nil.
  - repeat split; reflexivity.
Qed.

(** ** Callers that are never answered *)

(** C2, on the code: the process deadlocks with a caller still waiting.
    With two recipients and two POST requests, the first caller reads the
    first Outcome and returns; the worker then waits forever to send the
    second Outcome on the first request's unbuffered reply channel (line
    153), which nobody reads any more, and the second caller waits forever
    to hand over its request (line 174).  With an empty directory and one
    POST request, the worker takes the request, ranges over no recipient and
    is idle again, and the caller waits forever on its reply channel (line
    175). *)
Theorem caller_left_blocked :
  (exists ls s,
      steps Demo.SendMail TextTemplate.Execute
            (Demo.config Demo.two Demo.greeting)
            (boot [] [Demo.form; Demo.form]) ls s
      /\ stuck Demo.SendMail TextTemplate.Execute
               (Demo.config Demo.two Demo.greeting) s
      /\ worker s = WReply (Demo.ana 0%nat) "Hello Ana"
                           (Some "550 mailbox unavailable") []
      /\ tasks s = [Ret {| status := 200; body := "Success!" |} [];
                    Submit (Demo.ana 1%nat)
                           (Await 1%nat (respond (Demo.ana 1%nat)))])
  /\ (exists ls s,
        steps Demo.SendMail TextTemplate.Execute
              (Demo.config Demo.nobody Demo.greeting)
              (boot [] [Demo.form]) ls s
        /\ stuck Demo.SendMail TextTemplate.Execute
                 (Demo.config Demo.nobody Demo.greeting) s
        /\ worker s = WIdle
        /\ tasks s = [Await 0%nat (respond (Demo.ana 0%nat))]).
Proof.
  split.
  - eexists _, _. split; [|split].
    + eapply steps_cons.
      { eapply st_make with (i := 0%nat). reflexivity. }
      eapply steps_cons.
      { eapply st_submit with (i := 0%nat); [reflexivity|].
        eapply ws_recv_ok with (order := [Demo.alice; Demo.bob]);
          [reflexivity|].
        unfold range_order. by rewrite directory_two. }
      eapply steps_cons.
      { eapply st_mail. eapply ws_mail. reflexivity. }
      eapply steps_cons.
      { eapply st_reply with (i := 0%nat); [reflexivity|]. apply ws_reply. }
      eapply steps_cons.
      { eapply st_mail. eapply ws_mail. reflexivity. }
      eapply steps_cons.
      { eapply st_make with (i := 1%nat). reflexivity. }
      apply steps_nil.
    + intros l s' Hstep.
      inversion Hstep as [? j k Hj|? j data k ws w0 Hj Hw
                         |? j ch k o ws w0 Hj Hw|? c res ws w0 Hw];
        subst; simpl in *.
      * no_such_task Hj j.
      * inversion Hw.
      * no_such_task Hj j.
      * inversion Hw.
    + split; reflexivity.
  - eexists _, _. split; [|split].
    + eapply steps_cons.
      { eapply st_make with (i := 0%nat). reflexivity. }
      eapply steps_cons.
      { eapply st_submit with (i := 0%nat); [reflexivity|].
        eapply ws_recv_ok with (order := []); [reflexivity|].
        unfold range_order. vm_compute. reflexivity. }
      apply steps_nil.
    + intros l s' Hstep.
      inversion Hstep as [? j k Hj|? j data k ws w0 Hj Hw
                         |? j ch k o ws w0 Hj Hw|? c res ws w0 Hw];
        subst; simpl in *.
      * no_such_task Hj j.
      * no_such_task Hj j.
      * inversion Hw.
      * inversion Hw.
    + split; reflexivity.
Qed.

(** ** Further properties: the header *)

Lemma length_append (a b : string) :
  String.length (a +:+ b) = (String.length a + String.length b)%nat.
Proof. induction a as [|c a IH]; simpl; [done|]. by rewrite IH. Qed.

Lemma append_cancel_r (a b s : string) : a +:+ s = b +:+ s -> a = b.
Proof.
  revert b. induction a as [|c a IH]; intros [|c' b] H; simpl in *.
  - done.
  - apply (f_equal String.length) in H.
    rewrite !length_append in H. simpl in H. lia.
  - apply (f_equal String.length) in H.
    rewrite !length_append in H. simpl in H. lia.
  - injection H as -> H. f_equal. by apply IH.
Qed.

(** X1: the header determines the recipient it was made for: two
    recipients' addresses that give the same header text are the same
    address. *)
Theorem ToString_inj h to1 to2 :
  Header.ToString h to1 = Header.ToString h to2 -> to1 = to2.
Proof.
  unfold Header.ToString. intros H.
  do 3 apply String.app_inj in H.
  by apply append_cancel_r in H.
Qed.

Lemma ToString_inj_witness :
  Header.ToString Demo.header "alice@example.org"
  = Header.ToString Demo.header (Recipient.Address Demo.alice)
  /\ "alice@example.org" = Recipient.Address Demo.alice.
Proof.
  split; [reflexivity|].
  exact (ToString_inj Demo.header "alice@example.org"
           (Recipient.Address Demo.alice) eq_refl).
Defined.

(** ** Further properties: one dispatch cycle *)

Section CycleFacts.
Context {World : Type} (SendMail : World -> SendMailCall -> option error * World).
Context {Template : Type}
        (Execute : Template -> EmailSendRequest -> string * option error).
Context (m : MailConfig Template).

Lemma send_each_deliver cmd body rs w :
  send_each SendMail w (mail_call m body <$> rs)
  = ((mails (deliver SendMail m cmd body rs w).1).*2,
     (deliver SendMail m cmd body rs w).2).
Proof.
  revert w. induction rs as [|r rest IH]; intros w; simpl; [done|].
  destruct (SendMail w (mail_call m body r)) as [res w1].
  specialize (IH w1).
  change (list_fmap Recipient.t SendMailCall (mail_call m body) rest)
    with (mail_call m body <$> rest).
  rewrite IH.
  by destruct (deliver SendMail m cmd body rest w1) as [tr2 w2].
Qed.

(** The events of a cycle, whether the request rendered or not. *)
Lemma cycle_cases w cmd tr w' :
  cycle SendMail Execute m w cmd tr w' ->
  (exists out err, Execute (template m) cmd = (out, Some err)
     /\ tr = [LPub (Result cmd) {| Error := Some err |}] /\ w' = w)
  \/ (exists body order, Execute (template m) cmd = (body, None)
        /\ range_order m order
        /\ deliver SendMail m cmd body order w = (tr, w')).
Proof.
  intros (order & Hord & Hd)%cycle_dispatch. unfold dispatch in Hd.
  destruct (Execute (template m) cmd) as [body [err|]] eqn:Hex.
  - left. injection Hd as <- <-. by exists body, err.
  - right. by exists body, order.
Qed.

(** X2: every SMTP call of a cycle goes to the configured server
    [Host:Port], authenticates with the sender's address and password for
    that host under an empty identity, uses the sender's address as
    envelope sender, and names exactly one envelope recipient, the address
    of a recipient of the directory. *)
Theorem calls_use_configuration w cmd tr w' :
  cycle SendMail Execute m w cmd tr w' ->
  Forall (fun p : SendMailCall * option error =>
            call_addr p.1
            = SenderConfig.Host (Sender m) +:+ ":"
              +:+ format_int (SenderConfig.Port (Sender m))
            /\ call_auth p.1
               = {| auth_identity := "";
                    auth_username := SenderConfig.Address (Sender m);
                    auth_password := SenderConfig.Password (Sender m);
                    auth_host := SenderConfig.Host (Sender m) |}
            /\ call_from p.1 = SenderConfig.Address (Sender m)
            /\ exists key r, Recipients m !! key = Some r
                 /\ call_to p.1 = [Recipient.Address r])
         (mails tr).
Proof.
  intros [(out & err & _ & -> & _)|(body & order & Hex & Hord & Hd)]%cycle_cases;
    [by constructor|].
  apply Forall_forall. intros [c res] Hin.
  assert (c ∈ mail_call m body <$> order) as Hc.
  { rewrite <- (mails_deliver SendMail m cmd body order w), Hd.
    by apply (list_elem_of_fmap_2 fst _ (c, res)). }
  apply list_elem_of_fmap in Hc as (r & -> & Hr).
  unfold range_order in Hord. rewrite Hord in Hr.
  apply elem_of_directory in Hr as [key Hkey].
  repeat split; try done. by exists key, r.
Qed.

(** X3: within a cycle the worker sends on the request's own reply channel
    only, and it does not take another request from the queue. *)
Theorem publishes_on_own_channel w cmd tr w' :
  cycle SendMail Execute m w cmd tr w' ->
  Forall (fun l => match l with
                   | LPub ch _ => ch = Result cmd
                   | LMail _ _ => True
                   | LRecv _ => False
                   end) tr.
Proof.
  intros [(out & err & _ & -> & _)|(body & order & Hex & Hord & Hd)]%cycle_cases.
  - by repeat constructor.
  - replace tr with (deliver SendMail m cmd body order w).1 by (by rewrite Hd).
    rewrite deliver_attempts.
    induction (mails (deliver SendMail m cmd body order w).1) as [|p ps IH];
      simpl; [constructor|].
    by repeat constructor.
Qed.

(** X4: the SMTP calls of a cycle are made one after the other, each on the
    world that the call before it left, once per recipient of the range
    order whatever the earlier calls returned; the results published and
    the world after the cycle are those of that sequence. *)
Theorem calls_in_sequence w cmd body tr w' :
  Execute (template m) cmd = (body, None) ->
  cycle SendMail Execute m w cmd tr w' ->
  exists order, order ≡ₚ directory m
    /\ send_each SendMail w (mail_call m body <$> order)
       = (Error <$> outcomes (Result cmd) tr, w').
Proof.
  intros Hex [(out & err & Hex' & _)|(body' & order & Hex' & Hord & Hd)]%cycle_cases;
    [congruence|].
  assert (body' = body) as -> by congruence.
  exists order. split; [done|].
  rewrite (send_each_deliver cmd), Hd. simpl. f_equal.
  replace tr with (deliver SendMail m cmd body order w).1 by (by rewrite Hd).
  rewrite deliver_attempts, outcomes_attempts, mails_attempts.
  rewrite <- list_fmap_compose. done.
Qed.
End CycleFacts.

Lemma calls_use_configuration_witness :
  let m := Demo.config Demo.two Demo.greeting in
  let tr := (Demo.cycle_in Demo.two Demo.greeting (directory m)).1 in
  let w' := (Demo.cycle_in Demo.two Demo.greeting (directory m)).2 in
  cycle Demo.SendMail TextTemplate.Execute m [] (Demo.ana 0%nat) tr w'
  /\ Forall (fun p : SendMailCall * option error =>
               call_addr p.1 = "smtp.example.org:587"
               /\ call_auth p.1
                  = {| auth_identity := ""; auth_username := "docs@example.org";
                       auth_password := "hunter2";
                       auth_host := "smtp.example.org" |}
               /\ call_from p.1 = "docs@example.org"
               /\ exists key r, Recipients m !! key = Some r
                    /\ call_to p.1 = [Recipient.Address r])
            (mails tr).
Proof.
  intros m tr w'.
  pose proof (cycle_in_cycle Demo.two Demo.greeting) as Hcy.
  split; [exact Hcy|].
  exact (calls_use_configuration Demo.SendMail TextTemplate.Execute m []
           (Demo.ana 0%nat) tr w' Hcy).
Defined.

Lemma publishes_on_own_channel_witness :
  let m := Demo.config Demo.two Demo.greeting in
  let tr := (Demo.cycle_in Demo.two Demo.greeting (directory m)).1 in
  let w' := (Demo.cycle_in Demo.two Demo.greeting (directory m)).2 in
  cycle Demo.SendMail TextTemplate.Execute m [] (Demo.ana 0%nat) tr w'
  /\ Forall (fun l => match l with
                      | LPub ch _ => ch = 0%nat
                      | LMail _ _ => True
                      | LRecv _ => False
                      end) tr.
Proof.
  intros m tr w'.
  pose proof (cycle_in_cycle Demo.two Demo.greeting) as Hcy.
  split; [exact Hcy|].
  exact (publishes_on_own_channel Demo.SendMail TextTemplate.Execute m []
           (Demo.ana 0%nat) tr w' Hcy).
Defined.

Lemma calls_in_sequence_witness :
  let m := Demo.config Demo.two Demo.greeting in
  let tr := (Demo.cycle_in Demo.two Demo.greeting (directory m)).1 in
  let w' := (Demo.cycle_in Demo.two Demo.greeting (directory m)).2 in
  TextTemplate.Execute (template m) (Demo.ana 0%nat) = ("Hello Ana", None)
  /\ cycle Demo.SendMail TextTemplate.Execute m [] (Demo.ana 0%nat) tr w'
  /\ exists order, order ≡ₚ directory m
       /\ send_each Demo.SendMail [] (mail_call m "Hello Ana" <$> order)
          = (Error <$> outcomes 0%nat tr, w').
Proof.
  intros m tr w'.
  assert (TextTemplate.Execute (template m) (Demo.ana 0%nat)
          = ("Hello Ana", None)) as Hex by reflexivity.
  pose proof (cycle_in_cycle Demo.two Demo.greeting) as Hcy.
  split; [exact Hex|]. split; [exact Hcy|].
  exact (calls_in_sequence Demo.SendMail TextTemplate.Execute m []
           (Demo.ana 0%nat) "Hello Ana" tr w' Hex Hcy).
Defined.

(** ** Further properties: the gateway *)

Lemma clientHandler_unparsed r e :
  Method r = "POST" -> ParseForm r = Some e ->
  clientHandler r = Ret (http_Error "Invalid Form" StatusBadRequest) [].
Proof. intros HM HP. unfold clientHandler. by rewrite HM, HP. Qed.

(** The four ways in which the handler treats a request. *)
Lemma clientHandler_cases r :
  (Method r <> "POST"
   /\ clientHandler r
      = Ret (http_Error "Invalid request" StatusNotImplemented) [])
  \/ (Method r = "POST" /\ (exists e, ParseForm r = Some e)
      /\ clientHandler r = Ret (http_Error "Invalid Form" StatusBadRequest) [])
  \/ (Method r = "POST" /\ ParseForm r = None
      /\ clientHandler r
         = MakeChan (fun result =>
             Submit (build_request r result)
                    (Await result (respond (build_request r result))))).
Proof.
  destruct (decide (Method r = "POST")) as [HM|HM].
  - destruct (ParseForm r) as [e|] eqn:HP.
    + right; left. eauto using clientHandler_unparsed.
    + right; right. eauto using clientHandler_post.
  - left. eauto using clientHandler_other.
Qed.

(** X5: a POST request whose form does not parse is answered
    "Invalid Form" with status 400; the handler makes no channel, submits
    nothing to the worker and reads nothing. *)
Theorem unparsed_form_rejected r e fresh inbox :
  Method r = "POST" -> ParseForm r = Some e ->
  run (clientHandler r) fresh inbox
  = {| response := Some {| status := 400; body := "Invalid Form
" |};
       logged := []; submitted := []; received := []; unread := inbox |}.
Proof. intros HM HP. by rewrite (clientHandler_unparsed r e). Qed.

Lemma unparsed_form_rejected_witness :
  let r := {| Method := "POST"; RemoteAddr := "203.0.113.7:40112";
              ParseForm := Some "invalid URL escape"; Form := ∅ |} in
  Method r = "POST" /\ ParseForm r = Some "invalid URL escape"
  /\ response (run (clientHandler r) 0%nat [])
     = Some {| status := 400; body := "Invalid Form
" |}.
Proof.
  intros r. split; [reflexivity|]. split; [reflexivity|].
  exact (f_equal response
           (unparsed_form_rejected r "invalid URL escape" 0%nat []
              eq_refl eq_refl)).
Defined.

(** X6: the handler answers "Success!" with status 200 exactly when the
    request is a POST whose form parses and the first Outcome on its reply
    channel carries no error; every other response has status 400, 500 or
    501. *)
Theorem success_iff_first_outcome r fresh inbox resp :
  response (run (clientHandler r) fresh inbox) = Some resp ->
  (status resp = 200
   <-> Method r = "POST" /\ ParseForm r = None
       /\ exists o rest, inbox = o :: rest /\ Error o = None)
  /\ (status resp = 200 -> body resp = "Success!")
  /\ (status resp = 200 \/ status resp = 400 \/ status resp = 500
      \/ status resp = 501).
Proof.
  destruct (clientHandler_cases r) as [[HM ->]|[(HM & [e HP] & ->)|(HM & HP & ->)]];
    simpl.
  - intros [= <-]. simpl. split; [|split; [done|by auto]].
    split; [done|]. intros [? _]. done.
  - intros [= <-]. simpl. split; [|split; [done|by auto]].
    split; [done|]. intros (_ & ? & _). congruence.
  - destruct inbox as [|o rest]; simpl; [done|].
    unfold respond. destruct (Error o) as [err|] eqn:Ho; simpl; intros [= <-]; simpl.
    + split; [|split; [done|by auto]].
      split; [done|]. intros (_ & _ & o' & rest' & [= <- <-] & Ho'). congruence.
    + split; [|split; [done|by auto]].
      split; [|done]. intros _. repeat split; try done. by exists o, rest.
Qed.

Lemma success_iff_first_outcome_witness :
  response (run (clientHandler Demo.form) 0%nat [{| Error := None |}])
  = Some {| status := 200; body := "Success!" |}
  /\ (200 = 200
      <-> Method Demo.form = "POST" /\ ParseForm Demo.form = None
          /\ exists o rest, [{| Error := None |}] = o :: rest /\ Error o = None).
Proof.
  assert (response (run (clientHandler Demo.form) 0%nat [{| Error := None |}])
          = Some {| status := 200; body := "Success!" |}) as H by reflexivity.
  split; [exact H|].
  exact (proj1 (success_iff_first_outcome Demo.form 0%nat
                  [{| Error := None |}] _ H)).
Defined.

(** X7: whatever the request, the handler submits at most one SendRequest
    and reads at most one Outcome, the first of its reply channel, and only
    after it has submitted: its operations are, in this order, a response
    alone; or making its channel and submitting, where it waits for good
    when the channel yields nothing; or making its channel, submitting,
    receiving on that channel and responding.  It fails to respond exactly
    when the request is a POST whose form parses and its reply channel
    yields nothing. *)
Theorem handler_submits_and_reads_once r fresh inbox :
  let h := run (clientHandler r) fresh inbox in
  let data := build_request r fresh in
  (((Method r <> "POST" \/ exists e, ParseForm r = Some e)
    /\ exists resp, ops (clientHandler r) fresh inbox = [OpRespond resp]
         /\ response h = Some resp /\ submitted h = [] /\ received h = [])
   \/ (Method r = "POST" /\ ParseForm r = None /\ inbox = []
       /\ ops (clientHandler r) fresh inbox = [OpMake fresh; OpSubmit data]
       /\ response h = None /\ submitted h = [data] /\ received h = [])
   \/ (Method r = "POST" /\ ParseForm r = None
       /\ exists o rest resp, inbox = o :: rest
            /\ ops (clientHandler r) fresh inbox
               = [OpMake fresh; OpSubmit data; OpRecv fresh o; OpRespond resp]
            /\ response h = Some resp /\ submitted h = [data]
            /\ received h = [o] /\ unread h = rest))
  /\ (length (received h) <= length (submitted h) <= 1)%nat
  /\ (received h ++ unread h)%list = inbox
  /\ (response h = None
      <-> Method r = "POST" /\ ParseForm r = None /\ inbox = []).
Proof.
  destruct (clientHandler_cases r) as [[HM ->]|[(HM & [e HP] & ->)|(HM & HP & ->)]];
    simpl.
  - split; [left; split; eauto 10|].
    repeat split; try done; try lia. by intros [? _].
  - split; [left; split; eauto 10|].
    repeat split; try done; try lia. intros (_ & ? & _). congruence.
  - destruct inbox as [|o rest]; simpl.
    + split; [right; left; by repeat split|].
      repeat split; try done; lia.
    + unfold respond. destruct (Error o) as [err|]; simpl.
      * split; [right; right; repeat split; try done; by eexists _, _, _|].
        repeat split; try done; try lia. by intros (_ & _ & ?).
      * split; [right; right; repeat split; try done; by eexists _, _, _|].
        repeat split; try done; try lia. by intros (_ & _ & ?).
Qed.

(** ** Further properties: the stand-alone receiver *)

(** X8: [handleClient] looks at the path before the method: every request
    for a path other than "/" is answered 404 whatever its method and
    body; on "/" a method other than POST is answered 501, a POST with an
    unreadable body 500, and a POST with a readable body 200
    "Received it!". *)
Theorem handleClient_status r :
  let a := Main.answer (Main.handleClient r) in
  (status a = 404 <-> Main.Path r <> "/")
  /\ (status a = 501 <-> Main.Path r = "/" /\ Main.Method r <> "POST")
  /\ (status a = 500
      <-> Main.Path r = "/" /\ Main.Method r = "POST"
          /\ exists e, Main.Body r = inr e)
  /\ (status a = 200
      <-> Main.Path r = "/" /\ Main.Method r = "POST"
          /\ exists b, Main.Body r = inl b)
  /\ (status a = 200 -> body a = "Received it!").
Proof.
  unfold Main.handleClient.
  destruct (String.eqb_spec (Main.Path r) "/") as [HP|HP]; simpl.
  2: { intuition (try discriminate; try congruence). }
  destruct (String.eqb_spec (Main.Method r) "POST") as [HM|HM]; simpl.
  2: { intuition (try discriminate; try congruence). }
  destruct (Main.Body r) as [b|e]; simpl;
    intuition (try discriminate; try congruence; eauto);
    match goal with H : ex _ |- _ => by destruct H end.
Qed.

(** X9: [handleClient] prints on standard output exactly when it answers a
    POST on "/" whose body it could read, and then it prints that body
    followed by a newline; nothing of any other request is printed. *)
Theorem handleClient_echo r :
  (Main.stdout (Main.handleClient r) <> ""
   <-> Main.Path r = "/" /\ Main.Method r = "POST"
       /\ exists b, Main.Body r = inl b)
  /\ (forall b, Main.Path r = "/" -> Main.Method r = "POST" ->
        Main.Body r = inl b ->
        Main.stdout (Main.handleClient r) = b +:+ "
").
Proof.
  unfold Main.handleClient.
  destruct (String.eqb_spec (Main.Path r) "/") as [HP|HP]; simpl.
  2: { split; [|done]. split; [done|]. by intros [? _]. }
  destruct (String.eqb_spec (Main.Method r) "POST") as [HM|HM]; simpl.
  2: { split; [|done]. split; [done|]. by intros (_ & ? & _). }
  destruct (Main.Body r) as [b|e]; simpl.
  - split; [|by intros b' _ _ [= ->]].
    split; [by eauto|]. intros _ H.
    apply (f_equal String.length) in H. rewrite length_append in H.
    simpl in H. lia.
  - split; [|done]. split; [done|]. by intros (_ & _ & b & ?).
Qed.

(** ** Further properties: start-up *)

Section StartupFacts.
Context (ReadFile : string -> string * option error).
Context (Unmarshal : string -> ServerYaml * option error).
Context {Template : Type} (Parse : string -> Template * option error).

(** X10: start-up goes on exactly when the file is read, the YAML is decoded
    and the template text compiles; the configuration then carries the
    decoded directory and the template compiled from its own template text.
    Otherwise the process stops with the message of the first stage that
    failed, so the error check that follows [getConfig] in [Execute] never
    stops the process. *)
Theorem startup_stages configFile :
  let file := ReadFile configFile in
  let y := Unmarshal file.1 in
  let t := Parse (yaml_TemplateText y.1) in
  match Execute_config ReadFile Unmarshal Template Parse configFile with
  | Continue cfg =>
      file.2 = None /\ y.2 = None /\ t.2 = None
      /\ Recipients (EmailConfig cfg) = yaml_Recipients y.1
      /\ template (EmailConfig cfg)
         = (Parse (TemplateText (EmailConfig cfg))).1
  | Fatal msg =>
      (exists e, file.2 = Some e
         /\ msg = "@READING CONFIG FILE: " +:+ e +:+ "
")
      \/ (exists e, file.2 = None /\ y.2 = Some e
            /\ msg = "@PARSING CONFIG FILE: " +:+ e +:+ "
")
      \/ (exists e, file.2 = None /\ y.2 = None /\ t.2 = Some e
            /\ msg = "@PARSING EMAIL TEMPLATE: " +:+ e +:+ "
")
  end.
Proof.
  unfold Execute_config, ServerConfig_getConfig. simpl.
  destruct (ReadFile configFile) as [file [e|]]; simpl; [by eauto|].
  destruct (Unmarshal file) as [y [e|]]; simpl; [by eauto 10|].
  destruct (Parse (yaml_TemplateText y)) as [t [e|]] eqn:HP; simpl;
    [by eauto 10|].
  rewrite HP. done.
Qed.
End StartupFacts.

(** ** Further properties: the process *)

Lemma made_snoc ls l : made (ls ++ [l]) = (made ls ++ made [l])%list.
Proof. unfold made. apply flat_map_app. Qed.

Lemma submits_snoc ls l : submits (ls ++ [l]) = (submits ls ++ submits [l])%list.
Proof. unfold submits. apply flat_map_app. Qed.

Lemma answered_snoc ls l : answered (ls ++ [l]) = (answered ls ++ answered [l])%list.
Proof. unfold answered. apply flat_map_app. Qed.

Lemma last_submit_snoc ls i d : last_submit (ls ++ [SSubmit i d]) = Some (i, d).
Proof. unfold last_submit. rewrite submits_snoc. simpl. apply last_snoc. Qed.

Lemma last_submit_keep ls l :
  submits [l] = [] -> last_submit (ls ++ [l]) = last_submit ls.
Proof.
  intros H. unfold last_submit. by rewrite submits_snoc, H, app_nil_r.
Qed.

Lemma made_mono ls l x : x ∈ made ls -> x ∈ made (ls ++ [l]).
Proof. rewrite made_snoc, elem_of_app. auto. Qed.

(** A channel has one maker. *)
Lemma maker_unique (l : list (nat * chan)) i j ch :
  NoDup l.*2 -> (i, ch) ∈ l -> (j, ch) ∈ l -> i = j.
Proof.
  induction l as [|[i0 c0] l IH]; simpl; intros Hnd Hi Hj.
  - by apply elem_of_nil in Hi.
  - apply NoDup_cons in Hnd as [Hc0 Hnd].
    apply elem_of_cons in Hi as [Hi|Hi];
      apply elem_of_cons in Hj as [Hj|Hj]; simplify_eq; try done.
    + exfalso. apply Hc0. by apply (list_elem_of_fmap_2 snd _ (j, c0)).
    + exfalso. apply Hc0. by apply (list_elem_of_fmap_2 snd _ (i, c0)).
    + by apply IH.
Qed.

Lemma respond_ret d o : exists resp log, respond d o = Ret resp log.
Proof. unfold respond. destruct (Error o); eauto. Qed.

Lemma task_of_make r k :
  task_of r (MakeChan k) ->
  forall ch, k ch = Submit (build_request r ch)
                           (Await ch (respond (build_request r ch))).
Proof.
  inversion 1 as [Heq| | |ch o Heq].
  - destruct (clientHandler_cases r) as [[_ H']|[(_ & _ & H')|(_ & _ & H')]];
      rewrite H' in Heq; try discriminate.
    by injection Heq as <-.
  - destruct (respond_ret (build_request r ch) o) as (? & ? & Hr).
    congruence.
Qed.

Lemma task_of_submit r d k :
  task_of r (Submit d k) ->
  exists ch, d = build_request r ch /\ k = Await ch (respond d).
Proof.
  inversion 1 as [Heq|ch| |ch o Heq].
  - destruct (clientHandler_cases r) as [[_ H']|[(_ & _ & H')|(_ & _ & H')]];
      rewrite H' in Heq; discriminate.
  - by exists ch.
  - destruct (respond_ret (build_request r ch) o) as (? & ? & Hr).
    congruence.
Qed.

Lemma task_of_await r ch k :
  task_of r (Await ch k) -> k = respond (build_request r ch).
Proof.
  inversion 1 as [Heq| |ch'|ch' o Heq].
  - destruct (clientHandler_cases r) as [[_ H']|[(_ & _ & H')|(_ & _ & H')]];
      rewrite H' in Heq; discriminate.
  - done.
  - destruct (respond_ret (build_request r ch') o) as (? & ? & Hr).
    congruence.
Qed.

Lemma task_of_start_waits r : waits_on (clientHandler r) = None.
Proof.
  by destruct (clientHandler_cases r) as [[_ ->]|[(_ & _ & ->)|(_ & _ & ->)]].
Qed.

Section ProcessRuns.
Context {World : Type} (SendMail : World -> SendMailCall -> option error * World).
Context {Template : Type}
        (Execute : Template -> EmailSendRequest -> string * option error).
Context (m : MailConfig Template) (rs : list Request).

Local Abbreviation Holds := (Inv SendMail Execute m rs).
Local Abbreviation Moves := (step SendMail Execute m).
Local Abbreviation Phase := (phase SendMail Execute m).

Lemma Inv_boot w : Holds [] (boot w rs).
Proof.
  split; simpl.
  - by rewrite length_map.
  - intros i p Hi. apply list_lookup_fmap_Some in Hi as (r & -> & Hr).
    exists r. split; [done|constructor].
  - done.
  - intros i p ch Hi. apply list_lookup_fmap_Some in Hi as (r & -> & Hr).
    by rewrite task_of_start_waits.
  - intros i d Hin. by apply elem_of_nil in Hin.
  - intros i Hi. by apply elem_of_nil in Hi.
  - constructor.
  - by left.
  - intros j ch k Hj. apply list_lookup_fmap_Some in Hj as (r & Hj & Hr).
    destruct (clientHandler_cases r) as [[_ H']|[(_ & _ & H')|(_ & _ & H')]];
      rewrite H' in Hj; discriminate.
Qed.

Lemma Inv_maker ls s i j ch :
  Holds ls s -> (i, ch) ∈ made ls -> (j, ch) ∈ made ls -> i = j.
Proof.
  intros HI. apply maker_unique. rewrite (inv_made _ _ _ _ _ _ _ _ HI).
  apply NoDup_seq.
Qed.

Lemma pub_shape ws0 w0 ch o ws w :
  wstep SendMail Execute m (ws0, w0) (LPub ch o) (ws, w) ->
  w = w0
  /\ ((exists cmd err, ws0 = WReplyErr cmd err /\ ch = Result cmd
         /\ o = {| Error := Some err |} /\ ws = WIdle)
      \/ (exists cmd body res rest, ws0 = WReply cmd body res rest
            /\ ch = Result cmd /\ o = {| Error := res |}
            /\ ws = loop_head cmd body rest)).
Proof. inversion 1; subst; split; eauto 10. Qed.

Lemma mail_shape ws0 w0 c res ws w :
  wstep SendMail Execute m (ws0, w0) (LMail c res) (ws, w) ->
  exists cmd body r rest, ws0 = WDeliver cmd body r rest
    /\ c = mail_call m body r /\ SendMail w0 c = (res, w)
    /\ ws = WReply cmd body res rest.
Proof. inversion 1; subst; eauto 10. Qed.

Lemma phase_err d w a cmd err :
  Phase d w a (WReplyErr cmd err) ->
  cmd = d /\ a = false /\ exists out, Execute (template m) d = (out, Some err).
Proof. inversion 1; subst; eauto. Qed.

Lemma phase_deliver d w a cmd body r rest :
  Phase d w a (WDeliver cmd body r rest) ->
  cmd = d /\ Execute (template m) d = (body, None)
  /\ exists pre, range_order m (pre ++ r :: rest)
       /\ length pre = (if a then 1%nat else 0%nat).
Proof. inversion 1; subst; eauto. Qed.

Lemma phase_reply d w a cmd body res rest :
  Phase d w a (WReply cmd body res rest) ->
  cmd = d /\ Execute (template m) d = (body, None)
  /\ exists pre r w1, range_order m (pre ++ r :: rest)
       /\ length pre = (if a then 1%nat else 0%nat)
       /\ SendMail w1 (mail_call m body r) = (res, w).
Proof. inversion 1; subst; eauto 10. Qed.

Lemma phase_idle d w a : ~ Phase d w a WIdle.
Proof. inversion 1. Qed.

Lemma Inv_make ls s i k :
  Holds ls s -> tasks s !! i = Some (MakeChan k) ->
  Holds (ls ++ [SMake i (next_chan s)])
        {| worker := worker s; world := world s;
           tasks := <[i := k (next_chan s)]> (tasks s);
           next_chan := S (next_chan s) |}.
Proof.
  intros HI Hi.
  destruct (inv_tasks _ _ _ _ _ _ _ _ HI i _ Hi) as (r & Hr & Hk).
  pose proof (task_of_make r k Hk (next_chan s)) as Hk'.
  pose proof (lookup_lt_Some _ _ _ Hi) as Hlt.
  split; cbn [tasks next_chan worker world].
  - rewrite length_insert. apply HI.
  - intros j p Hj. destruct (decide (i = j)) as [<-|Hne].
    + rewrite list_lookup_insert_eq in Hj by done. injection Hj as <-.
      exists r. split; [done|]. rewrite Hk'. constructor.
    + rewrite list_lookup_insert_ne in Hj by done. by apply HI.
  - by rewrite made_snoc, fmap_app, (inv_made _ _ _ _ _ _ _ _ HI), seq_S.
  - intros j p ch Hj Hw. destruct (decide (i = j)) as [<-|Hne].
    + rewrite list_lookup_insert_eq in Hj by done. injection Hj as <-.
      rewrite Hk' in Hw. simpl in Hw. injection Hw as <-.
      rewrite made_snoc. apply elem_of_app. right. simpl. apply list_elem_of_singleton. done.
    + rewrite list_lookup_insert_ne in Hj by done.
      apply made_mono. by eapply HI.
  - rewrite submits_snoc. simpl. rewrite app_nil_r. intros i0 d0 Hin.
    destruct (inv_submits _ _ _ _ _ _ _ _ HI i0 d0 Hin) as (r0 & Hr0 & Hd0 & Hm0).
    exists r0. repeat split; try done. by apply made_mono.
  - rewrite answered_snoc. simpl. rewrite app_nil_r. intros j Hj.
    destruct (inv_answered _ _ _ _ _ _ _ _ HI j Hj) as (resp & log & Hret).
    exists resp, log. rewrite list_lookup_insert_ne; [done|]. congruence.
  - rewrite answered_snoc. simpl. rewrite app_nil_r. apply HI.
  - destruct (inv_worker _ _ _ _ _ _ _ _ HI) as [Hidle|(j & d & a & Hls & Hmd & Hph & Hown)];
      [by left|right].
    exists j, d, a. rewrite last_submit_keep by done.
    split; [done|]. split; [by apply made_mono|]. split; [done|].
    unfold owner in *. cbn [tasks]. destruct a.
    + destruct Hown as (resp & log & Hret). exists resp, log.
      rewrite list_lookup_insert_ne; [done|]. congruence.
    + rewrite list_lookup_insert_ne; [done|]. congruence.
  - intros j ch k' Hj. destruct (decide (i = j)) as [<-|Hne].
    + rewrite list_lookup_insert_eq in Hj by done. injection Hj as Hj.
      rewrite Hk' in Hj. discriminate.
    + rewrite list_lookup_insert_ne in Hj by done.
      rewrite last_submit_keep by done. by eapply HI.
Qed.

Lemma range_order_nil : range_order m [] -> size (Recipients m) = 0%nat.
Proof.
  unfold range_order. intros H. rewrite <- length_directory.
  by rewrite <- H.
Qed.

Lemma Inv_submit ls s i d k ws w :
  Holds ls s -> tasks s !! i = Some (Submit d k) ->
  wstep SendMail Execute m (worker s, world s) (LRecv d) (ws, w) ->
  Holds (ls ++ [SSubmit i d])
        {| worker := ws; world := w; tasks := <[i := k]> (tasks s);
           next_chan := next_chan s |}.
Proof.
  intros HI Hi Hw.
  destruct (inv_tasks _ _ _ _ _ _ _ _ HI i _ Hi) as (r & Hr & Hk).
  destruct (task_of_submit r d k Hk) as (ch & Hd & ->).
  pose proof (lookup_lt_Some _ _ _ Hi) as Hlt.
  assert ((i, Result d) ∈ made ls) as Hmade by (by eapply HI).
  assert (worker s = WIdle /\ w = world s
          /\ ((exists out err, Execute (template m) d = (out, Some err)
                 /\ ws = WReplyErr d err)
              \/ (exists body order, Execute (template m) d = (body, None)
                    /\ range_order m order /\ ws = loop_head d body order)))
    as (Hidle & -> & Hws).
  { inversion Hw; subst; eauto 10. }
  split; cbn [tasks next_chan worker world].
  - rewrite length_insert. apply HI.
  - intros j p Hj. destruct (decide (i = j)) as [<-|Hne].
    + rewrite list_lookup_insert_eq in Hj by done. injection Hj as <-.
      exists r. split; [done|]. rewrite Hd. constructor.
    + rewrite list_lookup_insert_ne in Hj by done. by apply HI.
  - rewrite made_snoc. simpl. rewrite app_nil_r. apply HI.
  - intros j p ch' Hj Hwt. apply made_mono.
    destruct (decide (i = j)) as [<-|Hne].
    + rewrite list_lookup_insert_eq in Hj by done. injection Hj as <-.
      simpl in Hwt. injection Hwt as <-. by rewrite Hd in Hmade.
    + rewrite list_lookup_insert_ne in Hj by done. by eapply HI.
  - rewrite submits_snoc. simpl.
    intros i0 d0 [Hin|Hin%list_elem_of_singleton]%elem_of_app.
    + destruct (inv_submits _ _ _ _ _ _ _ _ HI i0 d0 Hin) as (r0 & Hr0 & Hd0 & Hm0).
      exists r0. repeat split; try done. by apply made_mono.
    + injection Hin as -> ->. exists r. split; [done|].
      split; [|by apply made_mono].
      assert (Result d = ch) as -> by (by rewrite Hd). done.
  - rewrite answered_snoc. simpl. rewrite app_nil_r. intros j Hj.
    destruct (inv_answered _ _ _ _ _ _ _ _ HI j Hj) as (resp & log & Hret).
    exists resp, log. rewrite list_lookup_insert_ne; [done|]. congruence.
  - rewrite answered_snoc. simpl. rewrite app_nil_r. apply HI.
  - destruct Hws as [(out & err & Hex & ->)|(body & order & Hex & Hord & ->)].
    + right. exists i, d, false. rewrite last_submit_snoc.
      split; [done|]. split; [by apply made_mono|].
      split; [by econstructor|].
      unfold owner. cbn [tasks]. rewrite list_lookup_insert_eq by done.
      by rewrite Hd.
    + destruct order as [|r0 rest]; [by left|right].
      exists i, d, false. rewrite last_submit_snoc.
      split; [done|]. split; [by apply made_mono|].
      split; [by apply (ph_deliver _ _ _ _ _ _ _ false body [] r0 rest)|].
      unfold owner. cbn [tasks]. rewrite list_lookup_insert_eq by done.
      by rewrite Hd.
  - intros j ch' k' Hj. destruct (decide (i = j)) as [<-|Hne].
    + destruct Hws as [(out & err & Hex & ->)|(body & order & Hex & Hord & ->)].
      * left. split; [done|]. exists d. apply last_submit_snoc.
      * destruct order as [|r0 rest]; [right; by apply range_order_nil|].
        left. split; [done|]. exists d. apply last_submit_snoc.
    + rewrite list_lookup_insert_ne in Hj by done.
      destruct (inv_await _ _ _ _ _ _ _ _ HI j ch' k' Hj) as [[Hn _]|H0];
        [done|by right].
Qed.

Lemma reply_owner ls s i ch k o ws w :
  Holds ls s -> tasks s !! i = Some (Await ch k) ->
  wstep SendMail Execute m (worker s, world s) (LPub ch o) (ws, w) ->
  exists d, last_submit ls = Some (i, d) /\ ch = Result d /\ k = respond d
    /\ Phase d (world s) false (worker s).
Proof.
  intros HI Hi Hw.
  assert ((i, ch) ∈ made ls) as Hmade by (by eapply HI).
  destruct (inv_worker _ _ _ _ _ _ _ _ HI)
    as [Hidle|(j & d & a & Hls & Hmd & Hph & Hown)].
  { rewrite Hidle in Hw. inversion Hw. }
  assert (ch = Result d) as ->.
  { destruct (pub_shape _ _ _ _ _ _ Hw)
      as [_ [(cmd & err & Hc & -> & _)|(cmd & body & res & rest & Hc & -> & _)]];
      rewrite Hc in Hph.
    - by apply phase_err in Hph as [-> _].
    - by apply phase_reply in Hph as [-> _]. }
  assert (i = j) as <- by (by eapply Inv_maker).
  unfold owner in Hown. destruct a.
  { destruct Hown as (resp & log & Hret). congruence. }
  exists d. repeat split; try done. congruence.
Qed.

Lemma Inv_reply ls s i ch k o ws w :
  Holds ls s -> tasks s !! i = Some (Await ch k) ->
  wstep SendMail Execute m (worker s, world s) (LPub ch o) (ws, w) ->
  Holds (ls ++ [SReply i ch o])
        {| worker := ws; world := w; tasks := <[i := k o]> (tasks s);
           next_chan := next_chan s |}.
Proof.
  intros HI Hi Hw.
  destruct (reply_owner _ _ _ _ _ _ _ _ HI Hi Hw) as (d & Hls & -> & -> & Hph).
  destruct (inv_tasks _ _ _ _ _ _ _ _ HI i _ Hi) as (r & Hr & Hk).
  pose proof (task_of_await r _ _ Hk) as Hk'.
  pose proof (lookup_lt_Some _ _ _ Hi) as Hlt.
  destruct (respond_ret d o) as (resp & log & Hret).
  assert ((i, Result d) ∈ made ls) as Hmade by (by eapply HI).
  assert (i ∉ answered ls) as Hnew.
  { intros Hin. destruct (inv_answered _ _ _ _ _ _ _ _ HI i Hin) as (? & ? & ?).
    congruence. }
  split; cbn [tasks next_chan worker world].
  - rewrite length_insert. apply HI.
  - intros j p Hj. destruct (decide (i = j)) as [<-|Hne].
    + rewrite list_lookup_insert_eq in Hj by done. injection Hj as <-.
      exists r. split; [done|]. rewrite Hk'. constructor.
    + rewrite list_lookup_insert_ne in Hj by done. by apply HI.
  - rewrite made_snoc. simpl. rewrite app_nil_r. apply HI.
  - intros j p ch' Hj Hwt. apply made_mono.
    destruct (decide (i = j)) as [<-|Hne].
    + rewrite list_lookup_insert_eq in Hj by done. injection Hj as <-.
      rewrite Hret in Hwt. discriminate.
    + rewrite list_lookup_insert_ne in Hj by done. by eapply HI.
  - rewrite submits_snoc. simpl. rewrite app_nil_r. intros i0 d0 Hin.
    destruct (inv_submits _ _ _ _ _ _ _ _ HI i0 d0 Hin) as (r0 & Hr0 & Hd0 & Hm0).
    exists r0. repeat split; try done. by apply made_mono.
  - rewrite answered_snoc. simpl. intros j [Hj|Hj%list_elem_of_singleton]%elem_of_app.
    + destruct (inv_answered _ _ _ _ _ _ _ _ HI j Hj) as (resp' & log' & Hret').
      exists resp', log'. rewrite list_lookup_insert_ne; [done|]. congruence.
    + subst j. exists resp, log. by rewrite list_lookup_insert_eq, Hret.
  - rewrite answered_snoc. simpl. apply NoDup_app. split; [apply HI|].
    split; [|apply NoDup_singleton].
    intros j Hj ->%list_elem_of_singleton. done.
  - destruct (pub_shape _ _ _ _ _ _ Hw)
      as [-> [(cmd & err & Hc & _ & _ & ->)|(cmd & body & res & rest & Hc & _ & _ & ->)]];
      [by left|].
    rewrite Hc in Hph.
    apply phase_reply in Hph as (-> & Hex & pre & r0 & w1 & Hord & Hpre & Hsend).
    destruct pre; [|done]. simpl in Hord.
    destruct rest as [|r1 rest']; [by left|right].
    exists i, d, true. rewrite last_submit_keep by done.
    split; [done|]. split; [by apply made_mono|].
    split; [by apply (ph_deliver _ _ _ _ _ _ _ true body [r0] r1 rest')|].
    unfold owner. cbn [tasks]. exists resp, log.
    by rewrite list_lookup_insert_eq, Hret.
  - intros j ch' k' Hj. destruct (decide (i = j)) as [<-|Hne].
    + rewrite list_lookup_insert_eq, Hret in Hj by done. discriminate.
    + rewrite list_lookup_insert_ne in Hj by done.
      destruct (inv_await _ _ _ _ _ _ _ _ HI j ch' k' Hj) as [[_ [d' Hd']]|H0];
        [|by right].
      congruence.
Qed.

Lemma Inv_mail ls s c res ws w :
  Holds ls s ->
  wstep SendMail Execute m (worker s, world s) (LMail c res) (ws, w) ->
  Holds (ls ++ [SMail c res])
        {| worker := ws; world := w; tasks := tasks s;
           next_chan := next_chan s |}.
Proof.
  intros HI Hw.
  split; cbn [tasks next_chan worker world]; try apply HI.
  - rewrite made_snoc. simpl. rewrite app_nil_r. apply HI.
  - intros j p ch Hj Hwt. apply made_mono. by eapply HI.
  - rewrite submits_snoc. simpl. rewrite app_nil_r. intros i0 d0 Hin.
    destruct (inv_submits _ _ _ _ _ _ _ _ HI i0 d0 Hin) as (r0 & Hr0 & Hd0 & Hm0).
    exists r0. repeat split; try done. by apply made_mono.
  - rewrite answered_snoc. simpl. rewrite app_nil_r. apply HI.
  - rewrite answered_snoc. simpl. rewrite app_nil_r. apply HI.
  - right.
    destruct (inv_worker _ _ _ _ _ _ _ _ HI)
      as [Hidle|(j & d & a & Hls & Hmd & Hph & Hown)].
    { rewrite Hidle in Hw. inversion Hw. }
    exists j, d, a. rewrite last_submit_keep by done.
    split; [done|]. split; [by apply made_mono|]. split; [|done].
    destruct (mail_shape _ _ _ _ _ _ Hw) as (cmd & body & r & rest & Hc & -> & Hsend & ->).
    rewrite Hc in Hph.
    apply phase_deliver in Hph as (-> & Hex & pre & Hord & Hpre).
    by eapply ph_reply.
  - intros j ch k Hj. rewrite last_submit_keep by done.
    destruct (inv_await _ _ _ _ _ _ _ _ HI j ch k Hj) as [[_ Hd]|H0];
      [left|by right].
    split; [|done].
    by destruct (mail_shape _ _ _ _ _ _ Hw) as (? & ? & ? & ? & _ & _ & _ & ->).
Qed.

Lemma Inv_step ls s l s' : Holds ls s -> Moves s l s' -> Holds (ls ++ [l]) s'.
Proof.
  intros HI Hstep.
  inversion Hstep as [? i k Hi|? i d k ws w Hi Hw|? i ch k o ws w Hi Hw|? c res ws w Hw];
    subst.
  - by apply Inv_make.
  - by apply Inv_submit.
  - by apply Inv_reply.
  - by apply Inv_mail.
Qed.

Lemma steps_snoc s ls s' l s'' :
  steps SendMail Execute m s ls s' -> Moves s' l s'' ->
  steps SendMail Execute m s (ls ++ [l]) s''.
Proof.
  induction 1 as [s|s l0 s1 ls s2 Hstep Hsteps IH]; intros Hl; simpl.
  - eapply steps_cons; [done|constructor].
  - eapply steps_cons; [done|]. by apply IH.
Qed.

Lemma steps_inv_snoc s ls l s'' :
  steps SendMail Execute m s (ls ++ [l]) s'' ->
  exists s', steps SendMail Execute m s ls s' /\ Moves s' l s''.
Proof.
  revert s. induction ls as [|l0 ls IH]; intros s; simpl.
  - inversion 1 as [|? ? s1 ? ? Hstep Hsteps]; subst.
    inversion Hsteps; subst. exists s. split; [constructor|done].
  - inversion 1 as [|? ? s1 ? ? Hstep Hsteps]; subst.
    destruct (IH _ Hsteps) as (s' & Hs' & Hl).
    exists s'. split; [|done]. by eapply steps_cons.
Qed.

(** Every state the process reaches from start-up satisfies [Inv]. *)
Lemma Inv_steps w ls s :
  steps SendMail Execute m (boot w rs) ls s -> Holds ls s.
Proof.
  revert s. induction ls as [|l ls IH] using rev_ind; intros s Hsteps.
  - inversion Hsteps; subst. apply Inv_boot.
  - apply steps_inv_snoc in Hsteps as (s' & Hs' & Hl).
    eapply Inv_step; [by apply IH|done].
Qed.

Lemma recv_shape ws0 w0 d ws w :
  wstep SendMail Execute m (ws0, w0) (LRecv d) (ws, w) ->
  ws0 = WIdle /\ w = w0
  /\ ((exists out err, Execute (template m) d = (out, Some err)
         /\ ws = WReplyErr d err)
      \/ (exists body order, Execute (template m) d = (body, None)
            /\ range_order m order /\ ws = loop_head d body order)).
Proof. inversion 1; subst; eauto 10. Qed.

Lemma recv_total w d : exists ws, wstep SendMail Execute m (WIdle, w) (LRecv d) (ws, w).
Proof.
  destruct (Execute (template m) d) as [body [err|]] eqn:Hex.
  - eexists. by eapply ws_recv_fail.
  - eexists. eapply ws_recv_ok; [done|apply range_order_directory].
Qed.

Lemma range_order_size order : range_order m order -> length order = size (Recipients m).
Proof.
  unfold range_order. intros H. rewrite <- length_directory. by rewrite H.
Qed.

(** What a reply step hands over, and to whom. *)
Lemma reply_step w ls s j ch o s' :
  steps SendMail Execute m (boot w rs) ls s ->
  Moves s (SReply j ch o) s' ->
  exists r d, rs !! j = Some r /\ d = build_request r ch
    /\ last_submit ls = Some (j, d)
    /\ tasks s !! j = Some (Await ch (respond d))
    /\ tasks s' !! j = Some (respond d o)
    /\ world s' = world s
    /\ ((exists out err, Execute (template m) d = (out, Some err)
           /\ worker s = WReplyErr d err
           /\ o = {| Error := Some err |} /\ worker s' = WIdle)
        \/ (exists body r0 rest w1, Execute (template m) d = (body, None)
              /\ worker s = WReply d body (Error o) rest
              /\ range_order m (r0 :: rest)
              /\ SendMail w1 (mail_call m body r0) = (Error o, world s)
              /\ worker s' = loop_head d body rest)).
Proof.
  intros HI%Inv_steps Hstep.
  inversion Hstep as [| |? i ch' k o' ws w' Hi Hw|]; subst.
  destruct (reply_owner _ _ _ _ _ _ _ _ HI Hi Hw) as (d & Hls & -> & -> & Hph).
  apply last_Some_elem_of in Hls as Hin.
  destruct (inv_submits _ _ _ _ _ _ _ _ HI _ _ Hin) as (r & Hr & Hd & _).
  exists r, d. cbn [tasks world worker].
  rewrite list_lookup_insert_eq by (by eapply lookup_lt_Some).
  destruct (pub_shape _ _ _ _ _ _ Hw)
    as [-> [(cmd & err & Hc & _ & -> & ->)|(cmd & body & res & rest & Hc & _ & -> & ->)]];
    rewrite Hc in Hph.
  - apply phase_err in Hph as (-> & _ & out & Hex).
    repeat split; try done. left. by exists out, err.
  - apply phase_reply in Hph as (-> & Hex & pre & r0 & w1 & Hord & Hpre & Hsend).
    destruct pre; [|done].
    repeat split; try done. right. by exists body, r0, rest, w1.
Qed.

(** X11: an Outcome is received only by the goroutine whose request the
    worker dequeued last, on the channel that this goroutine made, and that
    request was built from the goroutine's own HTTP request: no caller ever
    receives the Outcome of another caller's request. *)
Theorem outcome_for_own_request w ls s j ch o s' :
  steps SendMail Execute m (boot w rs) ls s ->
  Moves s (SReply j ch o) s' ->
  exists r, rs !! j = Some r
    /\ last_submit ls = Some (j, build_request r ch)
    /\ (j, ch) ∈ made ls
    /\ tasks s' !! j = Some (respond (build_request r ch) o).
Proof.
  intros Hsteps Hstep.
  destruct (reply_step _ _ _ _ _ _ _ Hsteps Hstep)
    as (r & d & Hr & -> & Hls & Hj & Hj' & _).
  exists r. repeat split; try done.
  by eapply (inv_waits _ _ _ _ _ _ _ _ (Inv_steps _ _ _ Hsteps)).
Qed.

(** X13: no caller receives more than one Outcome, in any run and for any
    directory: a goroutine that has received its Outcome has responded and
    takes no further step. *)
Theorem answered_once w ls s :
  steps SendMail Execute m (boot w rs) ls s ->
  NoDup (answered ls)
  /\ forall i, i ∈ answered ls ->
       exists resp log, tasks s !! i = Some (Ret resp log).
Proof.
  intros HI%Inv_steps. split; [apply HI|]. apply HI.
Qed.

(** X14: every SMTP call of the process is made for the request the worker
    dequeued last: its message carries the body rendered from that request
    and the header for a recipient of the directory, and it changes the
    world as [SendMail] says. *)
Theorem mail_is_for_last_request w ls s c res s' :
  steps SendMail Execute m (boot w rs) ls s ->
  Moves s (SMail c res) s' ->
  exists i d body key r, last_submit ls = Some (i, d)
    /\ Execute (template m) d = (body, None)
    /\ Recipients m !! key = Some r
    /\ c = mail_call m body r
    /\ SendMail (world s) c = (res, world s').
Proof.
  intros HI%Inv_steps Hstep.
  inversion Hstep as [| | |? c' res' ws w' Hw]; subst. cbn [world].
  destruct (mail_shape _ _ _ _ _ _ Hw) as (cmd & body & r & rest & Hc & -> & Hsend & ->).
  destruct (inv_worker _ _ _ _ _ _ _ _ HI)
    as [Hidle|(i & d & a & Hls & Hmd & Hph & Hown)]; [congruence|].
  rewrite Hc in Hph.
  apply phase_deliver in Hph as (-> & Hex & pre & Hord & Hpre).
  assert (r ∈ directory m) as [key Hkey]%elem_of_directory.
  { unfold range_order in Hord. rewrite <- Hord.
    apply elem_of_app. right. apply elem_of_cons. by left. }
  by exists i, d, body, key, r.
Qed.

(** X15: with an empty directory every Outcome that a caller receives
    carries the error of rendering that caller's own request: a caller whose
    request renders is never handed an Outcome. *)
Theorem empty_directory_answers_errors_only w ls s j ch o s' :
  size (Recipients m) = 0%nat ->
  steps SendMail Execute m (boot w rs) ls s ->
  Moves s (SReply j ch o) s' ->
  exists r out err, rs !! j = Some r
    /\ Execute (template m) (build_request r ch) = (out, Some err)
    /\ o = {| Error := Some err |}.
Proof.
  intros Hsize Hsteps Hstep.
  destruct (reply_step _ _ _ _ _ _ _ Hsteps Hstep)
    as (r & d & Hr & -> & Hls & _ & _ & _ & Hcases).
  destruct Hcases as [(out & err & Hex & _ & -> & _)
                     |(body & r0 & rest & w1 & Hex & _ & Hord & _)].
  - by exists r, out, err.
  - apply range_order_size in Hord. simpl in Hord. lia.
Qed.

(** With two or more recipients, a dequeued request that renders is the
    last one the worker dequeues, and the worker stays busy. *)
Lemma rendered_request_is_last w ls s l1 i d l2 :
  (2 <= size (Recipients m))%nat ->
  steps SendMail Execute m (boot w rs) ls s ->
  submits ls = (l1 ++ (i, d) :: l2)%list ->
  (Execute (template m) d).2 = None ->
  l2 = [] /\ worker s <> WIdle.
Proof.
  intros Hsize. revert s l1 l2.
  induction ls as [|l ls IH] using rev_ind; intros s l1 l2 Hsteps Hsub Hex.
  { by destruct l1. }
  apply steps_inv_snoc in Hsteps as (s0 & Hsteps & Hstep).
  pose proof (Inv_steps _ _ _ Hsteps) as HI.
  rewrite submits_snoc in Hsub.
  inversion Hstep as [? j k Hj|? j d' k ws w' Hj Hw|? j ch k o ws w' Hj Hw|? c res ws w' Hw];
    subst; simpl in Hsub; cbn [worker].
  - rewrite app_nil_r in Hsub. by apply (IH s0 l1 l2).
  - destruct (recv_shape _ _ _ _ _ Hw) as (Hidle & -> & Hws).
    destruct l2 as [|x l2 _] using rev_ind.
    + apply app_inj_tail in Hsub as [_ [= <- <-]]. split; [done|].
      destruct Hws as [(out & err & Hex' & ->)|(body & order & Hex' & Hord & ->)];
        [done|].
      apply range_order_size in Hord.
      destruct order as [|r0 [|r1 order]]; simpl in Hord; try lia. done.
    + rewrite app_comm_cons, app_assoc in Hsub.
      apply app_inj_tail in Hsub as [Hsub _].
      by destruct (IH s0 l1 l2 Hsteps Hsub Hex).
  - rewrite app_nil_r in Hsub.
    destruct (IH s0 l1 l2 Hsteps Hsub Hex) as [-> Hbusy]. split; [done|].
    assert (last_submit ls = Some (i, d)) as Hls.
    { unfold last_submit. rewrite Hsub. apply last_snoc. }
    destruct (reply_step _ _ _ _ _ _ _ Hsteps Hstep)
      as (r & d0 & _ & _ & Hls0 & _ & _ & _ & Hcases).
    cbn [worker] in Hcases. rewrite Hls in Hls0. injection Hls0 as <- <-.
    destruct Hcases as [(out & err & Hex' & _)
                       |(body & r0 & rest & w1 & Hex' & _ & Hord & _ & ->)].
    + rewrite Hex' in Hex. discriminate.
    + apply range_order_size in Hord.
      destruct rest; simpl in Hord; [lia|done].
  - rewrite app_nil_r in Hsub.
    destruct (IH s0 l1 l2 Hsteps Hsub Hex) as [-> Hbusy]. split; [done|].
    by destruct (mail_shape _ _ _ _ _ _ Hw) as (? & ? & ? & ? & _ & _ & _ & ->).
Qed.

(** X17: with exactly one recipient the process never deadlocks with a
    caller waiting: in every state it reaches in which no goroutine can
    move, the worker is idle and every handler has responded. *)
Theorem single_recipient_never_deadlocks w ls s :
  size (Recipients m) = 1%nat ->
  steps SendMail Execute m (boot w rs) ls s ->
  stuck SendMail Execute m s ->
  worker s = WIdle
  /\ forall i p, tasks s !! i = Some p -> exists resp log, p = Ret resp log.
Proof.
  intros Hsize HI%Inv_steps Hstuck.
  assert (worker s = WIdle) as Hidle.
  { destruct (inv_worker _ _ _ _ _ _ _ _ HI)
      as [Hidle|(i & d & a & Hls & Hmd & Hph & Hown)]; [done|].
    exfalso. destruct (worker s) as [|cmd err|cmd body r rest|cmd body res rest] eqn:Hws.
    - by apply phase_idle in Hph.
    - apply phase_err in Hph as (-> & -> & _). unfold owner in Hown.
      eapply Hstuck. eapply st_reply; [done|]. rewrite Hws. apply ws_reply_err.
    - destruct (SendMail (world s) (mail_call m body r)) as [res w'] eqn:Hsend.
      eapply Hstuck. eapply st_mail. rewrite Hws. by apply ws_mail.
    - apply phase_reply in Hph as (-> & _ & pre & r & w1 & Hord & Hpre & _).
      apply range_order_size in Hord. rewrite length_app in Hord. simpl in Hord.
      destruct a; [lia|]. unfold owner in Hown.
      eapply Hstuck. eapply st_reply; [done|]. rewrite Hws. apply ws_reply. }
  split; [done|]. intros i p Hi.
  destruct (inv_tasks _ _ _ _ _ _ _ _ HI i p Hi) as (r & Hr & Hp).
  inversion Hp as [Heq|ch Heq|ch Heq|ch o Heq]; subst p.
  - destruct (clientHandler_cases r) as [[_ H']|[(_ & _ & H')|(_ & _ & H')]];
      rewrite H' in *; eauto.
    exfalso. eapply Hstuck. by eapply st_make.
  - exfalso. destruct (recv_total (world s) (build_request r ch)) as [ws Hw].
    eapply Hstuck. eapply st_submit; [done|]. rewrite Hidle. done.
  - exfalso.
    destruct (inv_await _ _ _ _ _ _ _ _ HI i _ _ Hi) as [[Hn _]|H0]; [done|lia].
  - apply respond_ret.
Qed.

(** X16: with two or more recipients the worker serves at most one request
    that renders: after the step in which it dequeues such a request, no
    run of the process contains another dequeue, and the worker is never
    idle again. *)
Theorem no_dequeue_after_rendered_request w ls s la i d lb :
  (2 <= size (Recipients m))%nat ->
  steps SendMail Execute m (boot w rs) ls s ->
  ls = (la ++ SSubmit i d :: lb)%list ->
  (Execute (template m) d).2 = None ->
  submits lb = [] /\ worker s <> WIdle.
Proof.
  intros Hsize Hsteps -> Hex.
  apply (rendered_request_is_last w (la ++ SSubmit i d :: lb) s
           (submits la) i d (submits lb));
    try done.
  unfold submits. by rewrite flat_map_app.
Qed.

Lemma answered_submitted w ls s j :
  steps SendMail Execute m (boot w rs) ls s ->
  j ∈ answered ls -> j ∈ (submits ls).*1.
Proof.
  revert s. induction ls as [|l ls IH] using rev_ind; intros s Hsteps Hj.
  { by apply elem_of_nil in Hj. }
  apply steps_inv_snoc in Hsteps as (s0 & Hsteps & Hstep).
  rewrite submits_snoc, fmap_app. apply elem_of_app.
  rewrite answered_snoc in Hj. apply elem_of_app in Hj as [Hj|Hj].
  { left. by eapply IH. }
  destruct l as [| |j' ch o|]; simpl in Hj; try by apply elem_of_nil in Hj.
  apply list_elem_of_singleton in Hj as ->. left.
  destruct (reply_step _ _ _ _ _ _ _ Hsteps Hstep) as (r & d & _ & _ & Hls & _).
  apply last_Some_elem_of in Hls.
  by apply (list_elem_of_fmap_2 fst _ (j', d)).
Qed.

(** X18: with two or more recipients and a template that renders every
    request, the process answers at most one caller, in any run and for any
    number of requests. *)
Theorem at_most_one_caller_answered w ls s :
  (2 <= size (Recipients m))%nat ->
  (forall d, (Execute (template m) d).2 = None) ->
  steps SendMail Execute m (boot w rs) ls s ->
  (length (answered ls) <= 1)%nat.
Proof.
  intros Hsize Hex Hsteps.
  pose proof (inv_once _ _ _ _ _ _ _ _ (Inv_steps _ _ _ Hsteps)) as Hnd.
  assert (forall j, j ∈ answered ls -> j ∈ (submits ls).*1) as Hsub
    by (intros j; by eapply answered_submitted).
  destruct (submits ls) as [|[i d] [|x l2]] eqn:Hs.
  - destruct (answered ls) as [|j l]; [simpl; lia|].
    assert (j ∈ j :: l) as Hj by (apply elem_of_cons; by left).
    apply Hsub in Hj. by apply elem_of_nil in Hj.
  - destruct (answered ls) as [|j [|j' l]]; simpl; try lia.
    pose proof (Hsub j) as Hj. pose proof (Hsub j') as Hj'.
    simpl in Hj, Hj'.
    rewrite list_elem_of_singleton in Hj, Hj'.
    rewrite Hj, Hj' in Hnd by (repeat constructor).
    apply NoDup_cons in Hnd as [Hnd _]. exfalso. apply Hnd. constructor.
  - by destruct (rendered_request_is_last w ls s [] i d (x :: l2) Hsize Hsteps Hs
                   (Hex d)).
Qed.
End ProcessRuns.

(** ** The runs of the deployment *)

Lemma run_to_mail :
  steps Demo.SendMail TextTemplate.Execute Run.two (boot [] [Demo.form])
        Run.to_mail Run.before_mail.
Proof.
  unfold Run.to_mail, Run.before_mail.
  eapply steps_cons.
  { eapply st_make with (i := 0%nat). reflexivity. }
  eapply steps_cons.
  { eapply st_submit with (i := 0%nat); [reflexivity|].
    eapply ws_recv_ok with (order := [Demo.alice; Demo.bob]); [reflexivity|].
    unfold range_order, Run.two. by rewrite directory_two. }
  apply steps_nil.
Qed.

Lemma run_mail :
  step Demo.SendMail TextTemplate.Execute Run.two Run.before_mail
       (SMail Run.mail_alice None) Run.before_reply.
Proof.
  unfold Run.before_reply.
  eapply st_mail with (s := Run.before_mail). by apply ws_mail.
Qed.

Lemma run_to_reply :
  steps Demo.SendMail TextTemplate.Execute Run.two (boot [] [Demo.form])
        Run.to_reply Run.before_reply.
Proof. eapply steps_snoc; [apply run_to_mail|apply run_mail]. Qed.

Lemma run_reply :
  step Demo.SendMail TextTemplate.Execute Run.two Run.before_reply
       (SReply 0%nat 0%nat {| Error := None |}) Run.after_reply.
Proof.
  unfold Run.after_reply.
  eapply st_reply with (s := Run.before_reply) (i := 0%nat)
                       (k := respond (Demo.ana 0%nat)); [reflexivity|].
  apply (ws_reply _ _ _ _ _ (Demo.ana 0%nat) "Hello Ana" None [Demo.bob]).
Qed.

Lemma run_to_failed :
  steps Demo.SendMail TextTemplate.Execute Run.nobody (boot [] [Demo.form])
        Run.to_mail Run.failed.
Proof.
  unfold Run.to_mail, Run.failed.
  eapply steps_cons.
  { eapply st_make with (i := 0%nat). reflexivity. }
  eapply steps_cons.
  { eapply st_submit with (i := 0%nat); [reflexivity|].
    eapply ws_recv_fail. reflexivity. }
  apply steps_nil.
Qed.

Lemma run_failed_reply :
  step Demo.SendMail TextTemplate.Execute Run.nobody Run.failed
       (SReply 0%nat 0%nat {| Error := Some Run.render_error |})
       Run.after_failed.
Proof.
  unfold Run.after_failed.
  eapply st_reply with (s := Run.failed) (i := 0%nat)
                       (k := respond (Demo.ana 0%nat)); [reflexivity|].
  apply (ws_reply_err _ _ _ _ _ (Demo.ana 0%nat)).
Qed.

Lemma run_to_served :
  steps Demo.SendMail TextTemplate.Execute Run.one (boot [] [Demo.form])
        Run.to_served Run.served.
Proof.
  unfold Run.to_served, Run.served.
  eapply steps_cons.
  { eapply st_make with (i := 0%nat). reflexivity. }
  eapply steps_cons.
  { eapply st_submit with (i := 0%nat); [reflexivity|].
    eapply ws_recv_ok with (order := [Demo.alice]); [reflexivity|].
    unfold range_order. vm_compute. reflexivity. }
  eapply steps_cons.
  { eapply st_mail. eapply ws_mail. reflexivity. }
  eapply steps_cons.
  { eapply st_reply with (i := 0%nat); [reflexivity|]. apply ws_reply. }
  apply steps_nil.
Qed.

Lemma served_stuck :
  stuck Demo.SendMail TextTemplate.Execute Run.one Run.served.
Proof.
  intros l s' Hstep.
  inversion Hstep as [? j k Hj|? j data k ws w0 Hj Hw
                     |? j ch k o ws w0 Hj Hw|? c res ws w0 Hw];
    subst; simpl in *.
  - no_such_task Hj j.
  - no_such_task Hj j.
  - no_such_task Hj j.
  - inversion Hw.
Qed.

Lemma outcome_for_own_request_witness :
  steps Demo.SendMail TextTemplate.Execute Run.two (boot [] [Demo.form])
        Run.to_reply Run.before_reply
  /\ step Demo.SendMail TextTemplate.Execute Run.two Run.before_reply
          (SReply 0%nat 0%nat {| Error := None |}) Run.after_reply
  /\ exists r, [Demo.form] !! 0%nat = Some r
       /\ last_submit Run.to_reply = Some (0%nat, build_request r 0%nat)
       /\ (0%nat, 0%nat) ∈ made Run.to_reply
       /\ tasks Run.after_reply !! 0%nat
          = Some (respond (build_request r 0%nat) {| Error := None |}).
Proof.
  split; [exact run_to_reply|]. split; [exact run_reply|].
  exact (outcome_for_own_request Demo.SendMail TextTemplate.Execute Run.two
           [Demo.form] [] _ _ _ _ _ _ run_to_reply run_reply).
Defined.

Lemma answered_once_witness :
  steps Demo.SendMail TextTemplate.Execute Run.one (boot [] [Demo.form])
        Run.to_served Run.served
  /\ NoDup (answered Run.to_served)
  /\ forall i, i ∈ answered Run.to_served ->
       exists resp log, tasks Run.served !! i = Some (Ret resp log).
Proof.
  split; [exact run_to_served|].
  exact (answered_once Demo.SendMail TextTemplate.Execute Run.one
           [Demo.form] [] _ _ run_to_served).
Defined.

Lemma mail_is_for_last_request_witness :
  steps Demo.SendMail TextTemplate.Execute Run.two (boot [] [Demo.form])
        Run.to_mail Run.before_mail
  /\ step Demo.SendMail TextTemplate.Execute Run.two Run.before_mail
          (SMail Run.mail_alice None) Run.before_reply
  /\ exists i d body key r, last_submit Run.to_mail = Some (i, d)
       /\ TextTemplate.Execute (template Run.two) d = (body, None)
       /\ Recipients Run.two !! key = Some r
       /\ Run.mail_alice = mail_call Run.two body r
       /\ Demo.SendMail (world Run.before_mail) Run.mail_alice
          = (None, world Run.before_reply).
Proof.
  split; [exact run_to_mail|]. split; [exact run_mail|].
  exact (mail_is_for_last_request Demo.SendMail TextTemplate.Execute Run.two
           [Demo.form] [] _ _ _ _ _ run_to_mail run_mail).
Defined.

Lemma empty_directory_answers_errors_only_witness :
  size (Recipients Run.nobody) = 0%nat
  /\ steps Demo.SendMail TextTemplate.Execute Run.nobody (boot [] [Demo.form])
           Run.to_mail Run.failed
  /\ step Demo.SendMail TextTemplate.Execute Run.nobody Run.failed
          (SReply 0%nat 0%nat {| Error := Some Run.render_error |})
          Run.after_failed
  /\ exists r out err, [Demo.form] !! 0%nat = Some r
       /\ TextTemplate.Execute (template Run.nobody) (build_request r 0%nat)
          = (out, Some err)
       /\ {| Error := Some Run.render_error |} = {| Error := Some err |}.
Proof.
  assert (size (Recipients Run.nobody) = 0%nat) as H by reflexivity.
  split; [exact H|]. split; [exact run_to_failed|].
  split; [exact run_failed_reply|].
  exact (empty_directory_answers_errors_only Demo.SendMail
           TextTemplate.Execute Run.nobody [Demo.form] [] _ _ _ _ _ _
           H run_to_failed run_failed_reply).
Defined.

Lemma no_dequeue_after_rendered_request_witness :
  (2 <= size (Recipients Run.two))%nat
  /\ steps Demo.SendMail TextTemplate.Execute Run.two (boot [] [Demo.form])
           Run.to_reply Run.before_reply
  /\ Run.to_reply
     = ([SMake 0%nat 0%nat] ++ SSubmit 0%nat (Demo.ana 0%nat)
          :: [SMail Run.mail_alice None])%list
  /\ (TextTemplate.Execute (template Run.two) (Demo.ana 0%nat)).2 = None
  /\ submits [SMail Run.mail_alice None] = []
  /\ worker Run.before_reply <> WIdle.
Proof.
  assert (2 <= size (Recipients Run.two))%nat as H by (vm_compute; lia).
  split; [exact H|]. split; [exact run_to_reply|].
  split; [reflexivity|]. split; [reflexivity|].
  exact (no_dequeue_after_rendered_request Demo.SendMail TextTemplate.Execute
           Run.two [Demo.form] [] Run.to_reply Run.before_reply
           [SMake 0%nat 0%nat] 0%nat (Demo.ana 0%nat)
           [SMail Run.mail_alice None] H run_to_reply eq_refl eq_refl).
Defined.

Lemma greeting_renders d :
  (TextTemplate.Execute (template Run.two) d).2 = None.
Proof. reflexivity. Qed.

Lemma at_most_one_caller_answered_witness :
  (2 <= size (Recipients Run.two))%nat
  /\ (forall d, (TextTemplate.Execute (template Run.two) d).2 = None)
  /\ steps Demo.SendMail TextTemplate.Execute Run.two (boot [] [Demo.form])
           Run.to_reply Run.before_reply
  /\ (length (answered Run.to_reply) <= 1)%nat.
Proof.
  assert (2 <= size (Recipients Run.two))%nat as H by (vm_compute; lia).
  split; [exact H|]. split; [exact greeting_renders|].
  split; [exact run_to_reply|].
  exact (at_most_one_caller_answered Demo.SendMail TextTemplate.Execute
           Run.two [Demo.form] [] _ _ H greeting_renders run_to_reply).
Defined.

Lemma single_recipient_never_deadlocks_witness :
  size (Recipients Run.one) = 1%nat
  /\ steps Demo.SendMail TextTemplate.Execute Run.one (boot [] [Demo.form])
           Run.to_served Run.served
  /\ stuck Demo.SendMail TextTemplate.Execute Run.one Run.served
  /\ worker Run.served = WIdle
  /\ forall i p, tasks Run.served !! i = Some p ->
       exists resp log, p = Ret resp log.
Proof.
  assert (size (Recipients Run.one) = 1%nat) as H by reflexivity.
  split; [exact H|]. split; [exact run_to_served|].
  split; [exact served_stuck|].
  exact (single_recipient_never_deadlocks Demo.SendMail TextTemplate.Execute
           Run.one [Demo.form] [] _ _ H run_to_served served_stuck).
Defined.

(** ** The calls of the current cycle, in every run *)

Section CycleRuns.
Context {World : Type} (SendMail : World -> SendMailCall -> option error * World).
Context {Template : Type}
        (Execute : Template -> EmailSendRequest -> string * option error).
Context (m : MailConfig Template) (rs : list Request).

Lemma cycle_mails_snoc ls l :
  cycle_mails (ls ++ [l])
  = match l with
    | SSubmit _ _ => []
    | SMail c res => (cycle_mails ls ++ [(c, res)])%list
    | _ => cycle_mails ls
    end.
Proof. unfold cycle_mails. rewrite fold_left_app. by destruct l. Qed.

Lemma visited_deliver d ls cmd body r rest :
  visited m d ls (WDeliver cmd body r rest) ->
  cmd = d /\ exists pre, range_order m (pre ++ r :: rest)
    /\ (cycle_mails ls).*1 = mail_call m body <$> pre.
Proof. inversion 1; subst; eauto. Qed.

Lemma visited_reply d ls cmd body res rest :
  visited m d ls (WReply cmd body res rest) ->
  cmd = d /\ exists pre r earlier, range_order m (pre ++ r :: rest)
    /\ earlier.*1 = mail_call m body <$> pre
    /\ cycle_mails ls = (earlier ++ [(mail_call m body r, res)])%list.
Proof. inversion 1; subst; eauto 10. Qed.

Lemma visited_err d ls cmd err :
  visited m d ls (WReplyErr cmd err) -> cmd = d /\ cycle_mails ls = [].
Proof. inversion 1; subst; eauto. Qed.

(** In every state the process reaches, the calls made since the last
    dequeue are those for the recipients the range has visited. *)
Lemma visited_steps w ls s :
  steps SendMail Execute m (boot w rs) ls s ->
  worker s = WIdle
  \/ exists i d, last_submit ls = Some (i, d) /\ visited m d ls (worker s).
Proof.
  revert s. induction ls as [|l ls IH] using rev_ind; intros s Hsteps.
  { inversion Hsteps; subst. by left. }
  apply steps_inv_snoc in Hsteps as (s0 & Hsteps & Hstep).
  specialize (IH s0 Hsteps).
  inversion Hstep as [? j k Hj|? j d' k ws w' Hj Hw|? j ch k o ws w' Hj Hw|? c res ws w' Hw];
    subst; cbn [worker].
  - destruct IH as [Hidle|(i & d & Hls & Hvis)]; [by left|right].
    exists i, d. rewrite last_submit_keep by done. split; [done|].
    inversion Hvis; subst; econstructor; rewrite ?cycle_mails_snoc; eauto.
  - destruct (recv_shape _ _ _ _ _ _ _ _ Hw) as (_ & _ & Hws).
    destruct Hws as [(out & err & Hex & ->)|(body & order & Hex & Hord & ->)].
    + right. exists j, d'. rewrite last_submit_snoc. split; [done|].
      constructor. by rewrite cycle_mails_snoc.
    + destruct order as [|r0 rest]; [by left|right].
      exists j, d'. rewrite last_submit_snoc. split; [done|].
      apply (vis_deliver _ m d' _ body [] r0 rest); [done|].
      by rewrite cycle_mails_snoc.
  - destruct (pub_shape _ _ _ _ _ _ _ _ _ Hw)
      as [_ [(cmd & err & Hc & _ & _ & ->)|(cmd & body & res & rest & Hc & _ & _ & ->)]];
      [by left|].
    destruct IH as [Hidle|(i & d & Hls & Hvis)]; [congruence|].
    rewrite Hc in Hvis.
    apply visited_reply in Hvis as (-> & pre & r & earlier & Hord & Hearlier & Hmails).
    destruct rest as [|r1 rest']; [by left|right].
    exists i, d. rewrite last_submit_keep by done. split; [done|].
    apply (vis_deliver _ m d _ body (pre ++ [r]) r1 rest').
    + by rewrite <- app_assoc.
    + rewrite cycle_mails_snoc, Hmails, !fmap_app, Hearlier. done.
  - destruct (mail_shape _ _ _ _ _ _ _ _ _ Hw)
      as (cmd & body & r & rest & Hc & -> & Hsend & ->).
    destruct IH as [Hidle|(i & d & Hls & Hvis)]; [congruence|].
    rewrite Hc in Hvis.
    apply visited_deliver in Hvis as (-> & pre & Hord & Hmails).
    right. exists i, d. rewrite last_submit_keep by done. split; [done|].
    apply (vis_reply _ m d _ body pre r rest res (cycle_mails ls)); try done.
    by rewrite cycle_mails_snoc.
Qed.

Lemma all_mails_snoc ls l :
  all_mails (ls ++ [l])
  = (all_mails ls ++ match l with SMail c res => [(c, res)] | _ => [] end)%list.
Proof. unfold all_mails. rewrite flat_map_app. simpl. by rewrite app_nil_r. Qed.

Lemma send_each_snoc (w : World) cs c :
  send_each SendMail w (cs ++ [c])
  = ((send_each SendMail w cs).1
       ++ [(SendMail (send_each SendMail w cs).2 c).1],
     (SendMail (send_each SendMail w cs).2 c).2)%list.
Proof.
  revert w. induction cs as [|c0 cs IH]; intros w; simpl.
  - by destruct (SendMail w c).
  - destruct (SendMail w c0) as [res0 w0]. rewrite IH.
    by destruct (send_each SendMail w0 cs).
Qed.

(** The world of a state is the one that the calls of the run leave when
    made in turn from the world at start-up, and the results recorded are
    theirs. *)
Lemma world_replay w ls s :
  steps SendMail Execute m (boot w rs) ls s ->
  send_each SendMail w (all_mails ls).*1 = ((all_mails ls).*2, world s).
Proof.
  revert s. induction ls as [|l ls IH] using rev_ind; intros s Hsteps.
  { by inversion Hsteps; subst. }
  apply steps_inv_snoc in Hsteps as (s0 & Hsteps & Hstep).
  specialize (IH s0 Hsteps). rewrite all_mails_snoc.
  inversion Hstep as [? j k Hj|? j d' k ws w' Hj Hw|? j ch k o ws w' Hj Hw|? c res ws w' Hw];
    subst; cbn [world]; rewrite ?app_nil_r; try done.
  - by destruct (recv_shape _ _ _ _ _ _ _ _ Hw) as (_ & -> & _).
  - by destruct (pub_shape _ _ _ _ _ _ _ _ _ Hw) as [-> _].
  - destruct (mail_shape _ _ _ _ _ _ _ _ _ Hw)
      as (cmd & body & r & rest & Hc & -> & Hsend & ->).
    rewrite !fmap_app. simpl. rewrite send_each_snoc, IH. simpl.
    by rewrite Hsend.
Qed.

(** The calls of the current cycle are the last calls of the run. *)
Lemma cycle_mails_suffix ls :
  exists before, all_mails ls = (before ++ cycle_mails ls)%list.
Proof.
  induction ls as [|l ls [before IH]] using rev_ind; [by exists []|].
  rewrite all_mails_snoc, cycle_mails_snoc.
  destruct l; rewrite ?app_nil_r; eauto.
  - exists (all_mails ls). by rewrite app_nil_r.
  - exists before. by rewrite IH, app_assoc.
Qed.

Lemma range_order_head r r0 rest :
  range_order m (r :: rest) -> range_order m (r0 :: rest) -> r = r0.
Proof.
  unfold range_order. intros H H0. rewrite <- H0 in H.
  apply (Permutation_app_inv_r rest [r] [r0]) in H.
  by apply Permutation_length_1 in H.
Qed.

(** X12: the Outcome that a caller receives is the first one of its
    request's cycle.  It carries the error of rendering the request, and
    then no SMTP call was made for the request; or else it carries the
    result of the one SMTP call made since the request was dequeued, the
    call for the recipient that the range over the directory visited
    first, made on the world that the earlier calls of the run had left,
    while the other recipients are still to be visited.  The caller has
    then responded, so the results for the other recipients never reach
    it. *)
Theorem outcome_is_first_delivery w ls s j ch o s' :
  steps SendMail Execute m (boot w rs) ls s ->
  step SendMail Execute m s (SReply j ch o) s' ->
  exists d, last_submit ls = Some (j, d)
    /\ tasks s' !! j = Some (respond d o)
    /\ (exists resp log, respond d o = Ret resp log)
    /\ ((exists out err, Execute (template m) d = (out, Some err)
           /\ o = {| Error := Some err |}
           /\ cycle_mails ls = [])
        \/ (exists body r0 rest before,
              Execute (template m) d = (body, None)
              /\ (r0 :: rest) ≡ₚ directory m
              /\ worker s = WReply d body (Error o) rest
              /\ cycle_mails ls = [(mail_call m body r0, Error o)]
              /\ all_mails ls
                 = (before ++ [(mail_call m body r0, Error o)])%list
              /\ SendMail (send_each SendMail w before.*1).2
                          (mail_call m body r0)
                 = (Error o, world s))).
Proof.
  intros Hsteps Hstep.
  destruct (reply_step _ _ _ _ _ _ _ _ _ _ _ Hsteps Hstep)
    as (r & d & _ & _ & Hls & _ & Hj' & _ & Hcases).
  exists d. split; [done|]. split; [done|]. split; [apply respond_ret|].
  destruct (visited_steps _ _ _ Hsteps) as [Hidle|(i & d' & Hls' & Hvis)].
  { destruct Hcases as [(? & ? & _ & Hws & _)|(? & ? & ? & ? & _ & Hws & _)];
      congruence. }
  destruct Hcases as [(out & err & Hex & Hws & -> & _)
                     |(body & r0 & rest & w1 & Hex & Hws & Hord & _)];
    rewrite Hws in Hvis.
  - apply visited_err in Hvis as [_ Hmails]. left. by exists out, err.
  - apply visited_reply in Hvis as (_ & pre & r1 & earlier & Hord1 & Hearlier & Hmails).
    assert (pre = []) as ->.
    { apply range_order_size in Hord. apply range_order_size in Hord1.
      rewrite length_app in Hord1. simpl in *. destruct pre; [done|].
      simpl in Hord1. lia. }
    destruct earlier; [|done]. simpl in *.
    assert (r1 = r0) as -> by (by eapply range_order_head).
    destruct (cycle_mails_suffix ls) as [before Hall]. rewrite Hmails in Hall.
    pose proof (world_replay _ _ _ Hsteps) as Hw.
    rewrite Hall, !fmap_app in Hw. simpl in Hw.
    rewrite send_each_snoc in Hw.
    injection Hw as Hres Hworld.
    apply app_inj_tail in Hres as [_ Hres].
    right. exists body, r0, rest, before. repeat split; try done.
    destruct (SendMail _ _) as [res' w']. simpl in *. congruence.
Qed.

(** C5: the bytes handed to the send operation.  In every run of the
    process, each SMTP call is made for a recipient of the directory: it
    goes to that recipient's address, and its message is the header text
    with that address on the To line, followed by the body rendered from
    the request the worker dequeued last, so that all the calls of one
    request carry the same body.  For each recipient of the directory,
    every call that goes to its address carries exactly these bytes.  In a
    cycle that runs to its end every recipient of the directory gets
    exactly one such call. *)
Theorem message_bytes_per_recipient :
  (forall w ls s c res s',
      steps SendMail Execute m (boot w rs) ls s ->
      step SendMail Execute m s (SMail c res) s' ->
      exists i d key r, last_submit ls = Some (i, d)
        /\ (Execute (template m) d).2 = None
        /\ Recipients m !! key = Some r
        /\ call_to c = [Recipient.Address r]
        /\ call_msg c
           = ("From: " +:+ Header.From (Header m) +:+ "
To: " +:+ Recipient.Address r +:+ "
Subject: " +:+ Header.Subject (Header m) +:+ "
" +:+ Header.MIME (Header m) +:+ "
" +:+ Header.Miscellaneous (Header m) +:+ "
") +:+ (Execute (template m) d).1)
  /\ (forall key r, Recipients m !! key = Some r ->
      forall w ls s c res s',
        steps SendMail Execute m (boot w rs) ls s ->
        step SendMail Execute m s (SMail c res) s' ->
        call_to c = [Recipient.Address r] ->
        exists i d, last_submit ls = Some (i, d)
          /\ (Execute (template m) d).2 = None
          /\ call_msg c
             = ("From: " +:+ Header.From (Header m) +:+ "
To: " +:+ Recipient.Address r +:+ "
Subject: " +:+ Header.Subject (Header m) +:+ "
" +:+ Header.MIME (Header m) +:+ "
" +:+ Header.Miscellaneous (Header m) +:+ "
") +:+ (Execute (template m) d).1)
  /\ (forall w cmd tr w',
        (Execute (template m) cmd).2 = None ->
        cycle SendMail Execute m w cmd tr w' ->
        exists order, order ≡ₚ directory m
          /\ (fun p : SendMailCall * option error =>
                (call_to p.1, call_msg p.1)) <$> mails tr
             = (fun r => ([Recipient.Address r],
                          ("From: " +:+ Header.From (Header m) +:+ "
To: " +:+ Recipient.Address r +:+ "
Subject: " +:+ Header.Subject (Header m) +:+ "
" +:+ Header.MIME (Header m) +:+ "
" +:+ Header.Miscellaneous (Header m) +:+ "
") +:+ (Execute (template m) cmd).1)) <$> order).
Proof.
  assert (forall w ls s c res s',
      steps SendMail Execute m (boot w rs) ls s ->
      step SendMail Execute m s (SMail c res) s' ->
      exists i d key r, last_submit ls = Some (i, d)
        /\ Execute (template m) d = ((Execute (template m) d).1, None)
        /\ Recipients m !! key = Some r
        /\ c = mail_call m (Execute (template m) d).1 r) as Hcall.
  { intros w ls s c res s' HI%Inv_steps Hstep.
    inversion Hstep as [| | |? c' res' ws w' Hw]; subst.
    destruct (mail_shape _ _ _ _ _ _ _ _ _ Hw)
      as (cmd & body & r & rest & Hc & -> & Hsend & ->).
    destruct (inv_worker _ _ _ _ _ _ _ _ HI)
      as [Hidle|(i & d & a & Hls & Hmd & Hph & Hown)]; [congruence|].
    rewrite Hc in Hph.
    apply phase_deliver in Hph as (-> & Hex & pre & Hord & Hpre).
    assert (r ∈ directory m) as [key Hkey]%elem_of_directory.
    { unfold range_order in Hord. rewrite <- Hord.
      apply elem_of_app. right. apply elem_of_cons. by left. }
    exists i, d, key, r. rewrite Hex. done. }
  split; [|split].
  - intros w ls s c res s' Hsteps Hstep.
    destruct (Hcall _ _ _ _ _ _ Hsteps Hstep) as (i & d & key & r & Hls & Hex & Hkey & ->).
    exists i, d, key, r. rewrite Hex at 1. done.
  - intros key r Hkey w ls s c res s' Hsteps Hstep Hto.
    destruct (Hcall _ _ _ _ _ _ Hsteps Hstep) as (i & d & key' & r' & Hls & Hex & Hkey' & ->).
    exists i, d. rewrite Hex at 1. repeat split; try done.
    simpl in Hto. injection Hto as Hto. simpl. unfold Header.ToString.
    by rewrite Hto.
  - intros w cmd tr w' Hex Hcy.
    destruct (Execute (template m) cmd) as [body err] eqn:Hbody.
    simpl in Hex. subst err.
    destruct (cycle_rendered _ _ _ _ _ _ _ _ Hbody Hcy) as (order & Hord & Hm & _).
    exists order. split; [done|].
    transitivity ((fun c => (call_to c, call_msg c)) <$> (mails tr).*1).
    { by rewrite <- list_fmap_compose. }
    rewrite Hm, <- list_fmap_compose. done.
Qed.
End CycleRuns.

Lemma outcome_is_first_delivery_witness :
  steps Demo.SendMail TextTemplate.Execute Run.two (boot [] [Demo.form])
        Run.to_reply Run.before_reply
  /\ step Demo.SendMail TextTemplate.Execute Run.two Run.before_reply
          (SReply 0%nat 0%nat {| Error := None |}) Run.after_reply
  /\ exists d, last_submit Run.to_reply = Some (0%nat, d)
       /\ tasks Run.after_reply !! 0%nat
          = Some (respond d {| Error := None |})
       /\ (exists resp log, respond d {| Error := None |} = Ret resp log)
       /\ ((exists out err,
              TextTemplate.Execute (template Run.two) d = (out, Some err)
              /\ {| Error := None |} = {| Error := Some err |}
              /\ cycle_mails Run.to_reply = [])
           \/ (exists body r0 rest before,
                 TextTemplate.Execute (template Run.two) d = (body, None)
                 /\ (r0 :: rest) ≡ₚ directory Run.two
                 /\ worker Run.before_reply = WReply d body None rest
                 /\ cycle_mails Run.to_reply = [(mail_call Run.two body r0, None)]
                 /\ all_mails Run.to_reply
                    = (before ++ [(mail_call Run.two body r0, None)])%list
                 /\ Demo.SendMail (send_each Demo.SendMail [] before.*1).2
                                  (mail_call Run.two body r0)
                    = (None, world Run.before_reply))).
Proof.
  split; [exact run_to_reply|]. split; [exact run_reply|].
  exact (outcome_is_first_delivery Demo.SendMail TextTemplate.Execute Run.two
           [Demo.form] [] _ _ _ _ _ _ run_to_reply run_reply).
Defined.

Lemma message_bytes_per_recipient_witness :
  let m := Run.two in
  let tr := (Demo.cycle_in Demo.two Demo.greeting (directory m)).1 in
  let w' := (Demo.cycle_in Demo.two Demo.greeting (directory m)).2 in
  (steps Demo.SendMail TextTemplate.Execute m (boot [] [Demo.form])
         Run.to_mail Run.before_mail
   /\ step Demo.SendMail TextTemplate.Execute m Run.before_mail
           (SMail Run.mail_alice None) Run.before_reply
   /\ exists i d key r, last_submit Run.to_mail = Some (i, d)
        /\ (TextTemplate.Execute (template m) d).2 = None
        /\ Recipients m !! key = Some r
        /\ call_to Run.mail_alice = [Recipient.Address r]
        /\ call_msg Run.mail_alice
           = ("From: " +:+ Header.From (Header m) +:+ "
To: " +:+ Recipient.Address r +:+ "
Subject: " +:+ Header.Subject (Header m) +:+ "
" +:+ Header.MIME (Header m) +:+ "
" +:+ Header.Miscellaneous (Header m) +:+ "
") +:+ (TextTemplate.Execute (template m) d).1)
  /\ (Recipients m !! "alice" = Some Demo.alice
      /\ call_to Run.mail_alice = [Recipient.Address Demo.alice]
      /\ exists i d, last_submit Run.to_mail = Some (i, d)
           /\ (TextTemplate.Execute (template m) d).2 = None
           /\ call_msg Run.mail_alice
              = ("From: " +:+ Header.From (Header m) +:+ "
To: " +:+ Recipient.Address Demo.alice +:+ "
Subject: " +:+ Header.Subject (Header m) +:+ "
" +:+ Header.MIME (Header m) +:+ "
" +:+ Header.Miscellaneous (Header m) +:+ "
") +:+ (TextTemplate.Execute (template m) d).1)
  /\ ((TextTemplate.Execute (template m) (Demo.ana 0%nat)).2 = None
      /\ cycle Demo.SendMail TextTemplate.Execute m [] (Demo.ana 0%nat) tr w'
      /\ exists order, order ≡ₚ directory m
           /\ (fun p : SendMailCall * option error =>
                 (call_to p.1, call_msg p.1)) <$> mails tr
              = (fun r => ([Recipient.Address r],
                           ("From: " +:+ Header.From (Header m) +:+ "
To: " +:+ Recipient.Address r +:+ "
Subject: " +:+ Header.Subject (Header m) +:+ "
" +:+ Header.MIME (Header m) +:+ "
" +:+ Header.Miscellaneous (Header m) +:+ "
") +:+ (TextTemplate.Execute (template m) (Demo.ana 0%nat)).1)) <$> order).
Proof.
  intros m tr w'.
  pose proof (message_bytes_per_recipient Demo.SendMail TextTemplate.Execute
                m [Demo.form]) as (Hrun & Heach & Hcycle).
  pose proof (cycle_in_cycle Demo.two Demo.greeting) as Hcy.
  assert (Recipients m !! "alice" = Some Demo.alice) as Halice
    by (vm_compute; reflexivity).
  split; [|split].
  - split; [exact run_to_mail|]. split; [exact run_mail|].
    exact (Hrun [] _ _ _ _ _ run_to_mail run_mail).
  - split; [exact Halice|]. split; [reflexivity|].
    exact (Heach "alice" Demo.alice Halice [] _ _ _ _ _
             run_to_mail run_mail eq_refl).
  - split; [reflexivity|]. split; [exact Hcy|].
    exact (Hcycle [] (Demo.ana 0%nat) tr w' eq_refl Hcy).
Defined.

(** The message that Alice gets, byte for byte. *)
Example mail_alice_bytes :
  call_msg Run.mail_alice
  = "From: Docs <docs@example.org>
To: alice@example.org
Subject: Documentation request
MIME-version: 1.0;
Content-Type: text/plain; charset=UTF-8;
Hello Ana".
Proof. reflexivity. Qed.

(** ** The recipient that is never reached *)

Lemma directory_three :
  directory Run.three = [Demo.carol; Demo.alice; Demo.bob].
Proof. vm_compute. reflexivity. Qed.

(** C4, on the code: with three recipients, ranged over as Alice, Bob and
    Carol, the handler of a POST request reads the Outcome of Alice's mail
    and returns; the worker calls the Delivery Client for Bob and then
    waits forever to send Bob's Outcome on the reply channel, which nobody
    reads any more (line 153).  The process cannot move: two calls were
    made for three recipients, one Outcome was received, and Carol's
    delivery is never attempted. *)
Theorem third_recipient_never_mailed :
  steps Demo.SendMail TextTemplate.Execute Run.three (boot [] [Demo.form])
        Run.to_wedged Run.wedged
  /\ stuck Demo.SendMail TextTemplate.Execute Run.three Run.wedged
  /\ size (Recipients Run.three) = 3%nat
  /\ call_to <$> (all_mails Run.to_wedged).*1
     = [["alice@example.org"]; ["bob@example.org"]]
  /\ answered Run.to_wedged = [0%nat]
  /\ worker Run.wedged
     = WReply (Demo.ana 0%nat) "Hello Ana" (Some "550 mailbox unavailable")
              [Demo.carol].
Proof.
  split; [|split].
  - unfold Run.to_wedged, Run.wedged.
    eapply steps_cons.
    { eapply st_make with (i := 0%nat). reflexivity. }
    eapply steps_cons.
    { eapply st_submit with (i := 0%nat); [reflexivity|].
      eapply ws_recv_ok with (order := [Demo.alice; Demo.bob; Demo.carol]);
        [reflexivity|].
      unfold range_order. rewrite directory_three.
      apply (Permutation_app_comm [Demo.alice; Demo.bob] [Demo.carol]). }
    eapply steps_cons.
    { eapply st_mail. eapply ws_mail. reflexivity. }
    eapply steps_cons.
    { eapply st_reply with (i := 0%nat); [reflexivity|]. apply ws_reply. }
    eapply steps_cons.
    { eapply st_mail. eapply ws_mail. reflexivity. }
    apply steps_nil.
  - intros l s' Hstep.
    inversion Hstep as [? j k Hj|? j data k ws w0 Hj Hw
                       |? j ch k o ws w0 Hj Hw|? c res ws w0 Hw];
      subst; simpl in *.
    + no_such_task Hj j.
    + no_such_task Hj j.
    + no_such_task Hj j.
    + inversion Hw.
  - vm_compute. repeat split; reflexivity.
Qed.

(** ** The form that does not parse *)

(** C8 fails as stated: a POST request whose form does not parse is
    rejected with status 400 and no SendRequest is built from it. *)
Lemma missing_fields_are_empty_counterexample :
  Method Run.unparsed = "POST"
  /\ run (clientHandler Run.unparsed) 0%nat []
     = {| response := Some {| status := 400; body := "Invalid Form
" |};
          logged := []; submitted := []; received := []; unread := [] |}
  /\ ~ (exists data,
          submitted (run (clientHandler Run.unparsed) 0%nat []) = [data]).
Proof.
  split; [reflexivity|]. split; [reflexivity|].
  intros [data H]. discriminate H.
Qed.
